(** * DomoActors-Py: the mailboxes and their single dispatch worker

    A shallow embedding of [domo_actors/actors/array_mailbox.py] and
    [domo_actors/actors/bounded_mailbox.py].

    Both classes run on asyncio's single-threaded event loop, so every
    method body, and every stretch of [_dispatch_all] between two
    suspensions at [await message.deliver()], is one atomic step.  A state
    of the model is the object's fields, the dispatch tasks the event loop
    holds for the mailbox, and logs of the calls the mailbox makes on its
    collaborators (the message, its deferred, the stage's dead letters). *)

From Stdlib Require Import List Arith ZArith Bool Lia Permutation.
From stdpp Require Import base list.
Import ListNotations.

Set Default Proof Using "Type".

(** ** What both mailboxes share *)

(** Modelled from the spec: [message.py] is not among the sources.  A
    [Message] is an envelope with an identity; the envelope is enqueued once
    and names its destination, its invocation and its completion handle.
    Here a message is its identity.  [EmptyMessage], the only message whose
    [is_deliverable()] is false, is [None] in [option Message]. *)
Definition Message := nat.

(** How a pending [await message.deliver()] ends: the call returns, or an
    exception (or a cancellation) leaves the [try] block. *)
Inductive outcome := Returned | Raised.

(** The atomic steps of a mailbox.  [Send], [Suspend], [Resume], [Close] and
    [Dispatch] are the public methods; [Start] lets a task made by
    [asyncio.create_task(self._dispatch_all())] run for the first time, and
    [Continue o] resumes a task that is suspended in [message.deliver()]. *)
Inductive label :=
  | Send (m : Message)
  | Suspend
  | Resume
  | Close
  | Dispatch
  | Start
  | Continue (o : outcome).

(** The messages handed to [send] along a trace, in order. *)
Fixpoint sends (tr : list label) : list Message :=
  match tr with
  | [] => []
  | Send m :: tr' => m :: sends tr'
  | _ :: tr' => sends tr'
  end.

Definition b2n (b : bool) : nat := if b then 1 else 0.

(** ** ArrayMailbox *)
Module ArrayMailbox.

Record state := mk {
  (* fields of the object *)
  queue : list Message;        (* self._queue, head first *)
  closed : bool;               (* self._closed *)
  suspended : bool;            (* self._suspended *)
  dispatching : bool;          (* self._dispatching *)
  (* the event loop: tasks running _dispatch_all *)
  tasks : nat;                 (* created, not yet started *)
  awaiting : nat;              (* suspended in await message.deliver() *)
  (* calls made on collaborators, oldest first *)
  delivered : list Message;    (* message.deliver() *)
  dead_letters : list Message; (* dead_letters().failed_delivery(DeadLetter(m...)) *)
  resolved : list Message;     (* message.deferred().resolve(None) *)
  (* history of self._queue.append, oldest first *)
  appended : list Message
}.

(** [__init__] *)
Definition init : state :=
  mk [] false false false 0 0 [] [] [] [].

Definition set_queue (q : list Message) (s : state) : state :=
  mk q (closed s) (suspended s) (dispatching s) (tasks s) (awaiting s)
     (delivered s) (dead_letters s) (resolved s) (appended s).
Definition set_closed (b : bool) (s : state) : state :=
  mk (queue s) b (suspended s) (dispatching s) (tasks s) (awaiting s)
     (delivered s) (dead_letters s) (resolved s) (appended s).
Definition set_suspended (b : bool) (s : state) : state :=
  mk (queue s) (closed s) b (dispatching s) (tasks s) (awaiting s)
     (delivered s) (dead_letters s) (resolved s) (appended s).
Definition set_dispatching (b : bool) (s : state) : state :=
  mk (queue s) (closed s) (suspended s) b (tasks s) (awaiting s)
     (delivered s) (dead_letters s) (resolved s) (appended s).
Definition set_tasks (n : nat) (s : state) : state :=
  mk (queue s) (closed s) (suspended s) (dispatching s) n (awaiting s)
     (delivered s) (dead_letters s) (resolved s) (appended s).
Definition set_awaiting (n : nat) (s : state) : state :=
  mk (queue s) (closed s) (suspended s) (dispatching s) (tasks s) n
     (delivered s) (dead_letters s) (resolved s) (appended s).

(** [self._queue.append(message)] *)
Definition queue_append (m : Message) (s : state) : state :=
  mk (queue s ++ [m]) (closed s) (suspended s) (dispatching s) (tasks s)
     (awaiting s) (delivered s) (dead_letters s) (resolved s)
     (appended s ++ [m]).

(** [asyncio.create_task(self._dispatch_all())] *)
Definition create_task (s : state) : state := set_tasks (S (tasks s)) s.

(** [message.to().stage().dead_letters().failed_delivery(dead_letter)] *)
Definition failed_delivery (m : Message) (s : state) : state :=
  mk (queue s) (closed s) (suspended s) (dispatching s) (tasks s)
     (awaiting s) (delivered s) (dead_letters s ++ [m]) (resolved s)
     (appended s).

(** [message.deferred().resolve(None)] *)
Definition resolve_none (m : Message) (s : state) : state :=
  mk (queue s) (closed s) (suspended s) (dispatching s) (tasks s)
     (awaiting s) (delivered s) (dead_letters s) (resolved s ++ [m])
     (appended s).

(** the call [message.deliver()] *)
Definition deliver (m : Message) (s : state) : state :=
  mk (queue s) (closed s) (suspended s) (dispatching s) (tasks s)
     (awaiting s) (delivered s ++ [m]) (dead_letters s) (resolved s)
     (appended s).

Definition is_suspended (s : state) : bool := suspended s.
Definition is_closed (s : state) : bool := closed s.
Definition is_receivable (s : state) : bool := 0 <? length (queue s).
Definition size (s : state) : nat := length (queue s).

(** the dispatch tasks alive on the mailbox *)
Definition workers (s : state) : nat := tasks s + awaiting s.

Definition send (m : Message) (s : state) : state :=
  if negb (closed s) then
    let s1 := queue_append m s in
    if negb (suspended s1) && negb (dispatching s1)
    then create_task (set_dispatching true s1)
    else s1
  else
    resolve_none m (failed_delivery m s).

Definition receive (s : state) : option Message * state :=
  match queue s with
  | m :: rest => (Some m, set_queue rest s)
  | [] => (None, s)
  end.

(** The [finally] block of [_dispatch_all], after which the task that runs
    it is done.  [s] no longer counts that task. *)
Definition dispatch_finally (s : state) : state :=
  let s1 := set_dispatching false s in
  if negb (suspended s1) && negb (closed s1) && is_receivable s1
  then create_task (set_dispatching true s1)
  else s1.

(** One pass of the [while True] body, from its top to the next
    suspension or to the end of the task.  [s] does not count the task
    that runs it; the task is counted again when it suspends. *)
Definition dispatch_loop (s : state) : state :=
  if suspended s || closed s then dispatch_finally s
  else
    match receive s with
    | (None, s1) => dispatch_finally s1
    | (Some m, s1) =>
        let s2 := deliver m s1 in
        set_awaiting (S (awaiting s2)) s2
    end.

(** the legacy [dispatch()] *)
Definition dispatch (s : state) : state :=
  if dispatching s then s
  else if negb (suspended s) && negb (closed s) && is_receivable s
  then create_task (set_dispatching true s)
  else s.

Definition suspend (s : state) : state := set_suspended true s.

Definition resume (s : state) : state :=
  let s1 := set_suspended false s in
  if is_receivable s1 && negb (dispatching s1)
  then create_task (set_dispatching true s1)
  else s1.

Definition close (s : state) : state := set_closed true s.

Definition step (l : label) (s : state) : state :=
  match l with
  | Send m => send m s
  | Suspend => suspend s
  | Resume => resume s
  | Close => close s
  | Dispatch => dispatch s
  | Start =>
      match tasks s with
      | S n => dispatch_loop (set_tasks n s)
      | O => s
      end
  | Continue o =>
      match awaiting s with
      | S n =>
          match o with
          | Returned => dispatch_loop (set_awaiting n s)
          | Raised => dispatch_finally (set_awaiting n s)
          end
      | O => s
      end
  end.

Definition run (tr : list label) (s : state) : state :=
  fold_left (fun s l => step l s) tr s.

Definition reachable (s : state) : Prop := exists tr, s = run tr init.

End ArrayMailbox.

(** ** BoundedMailbox *)

(** Modelled from the spec: the enum [OverflowPolicy] of [mailbox.py], which
    is not among the sources.  Its members are the three that
    [_handle_overflow] compares with (overflow policy ∈ {DropOldest,
    DropNewest, Reject}). *)
Inductive OverflowPolicy := DROP_OLDEST | DROP_NEWEST | REJECT.

Module BoundedMailbox.

Record state := mk {
  (* fields of the object *)
  queue : list Message;          (* self._queue, head first *)
  capacity : Z;                  (* self._capacity, a Python int *)
  overflow_policy : OverflowPolicy;  (* self._overflow_policy *)
  closed : bool;                 (* self._closed *)
  suspended : bool;              (* self._suspended *)
  dropped_message_count : nat;   (* self._dropped_message_count, counts up from 0 *)
  dispatching : bool;            (* self._dispatching *)
  (* the event loop: tasks running _dispatch_all *)
  tasks : nat;                   (* created, not yet started *)
  awaiting : nat;                (* suspended in await message.deliver() *)
  (* calls made on collaborators, oldest first *)
  delivered : list Message;      (* message.deliver() *)
  dead_letters : list Message;   (* dead_letters().failed_delivery(DeadLetter(m...)) *)
  resolved : list Message;       (* message.deferred().resolve(None) *)
  (* history of self._queue.append, oldest first *)
  appended : list Message
}.

(** [__init__] *)
Definition init (capacity : Z) (overflow_policy : OverflowPolicy) : state :=
  mk [] capacity overflow_policy false false 0 false 0 0 [] [] [] [].

Definition set_queue (q : list Message) (s : state) : state :=
  mk q (capacity s) (overflow_policy s) (closed s) (suspended s)
     (dropped_message_count s) (dispatching s) (tasks s) (awaiting s)
     (delivered s) (dead_letters s) (resolved s) (appended s).
Definition set_closed (b : bool) (s : state) : state :=
  mk (queue s) (capacity s) (overflow_policy s) b (suspended s)
     (dropped_message_count s) (dispatching s) (tasks s) (awaiting s)
     (delivered s) (dead_letters s) (resolved s) (appended s).
Definition set_suspended (b : bool) (s : state) : state :=
  mk (queue s) (capacity s) (overflow_policy s) (closed s) b
     (dropped_message_count s) (dispatching s) (tasks s) (awaiting s)
     (delivered s) (dead_letters s) (resolved s) (appended s).
Definition set_dropped_message_count (n : nat) (s : state) : state :=
  mk (queue s) (capacity s) (overflow_policy s) (closed s) (suspended s)
     n (dispatching s) (tasks s) (awaiting s)
     (delivered s) (dead_letters s) (resolved s) (appended s).
Definition set_dispatching (b : bool) (s : state) : state :=
  mk (queue s) (capacity s) (overflow_policy s) (closed s) (suspended s)
     (dropped_message_count s) b (tasks s) (awaiting s)
     (delivered s) (dead_letters s) (resolved s) (appended s).
Definition set_tasks (n : nat) (s : state) : state :=
  mk (queue s) (capacity s) (overflow_policy s) (closed s) (suspended s)
     (dropped_message_count s) (dispatching s) n (awaiting s)
     (delivered s) (dead_letters s) (resolved s) (appended s).
Definition set_awaiting (n : nat) (s : state) : state :=
  mk (queue s) (capacity s) (overflow_policy s) (closed s) (suspended s)
     (dropped_message_count s) (dispatching s) (tasks s) n
     (delivered s) (dead_letters s) (resolved s) (appended s).

(** [self._queue.append(message)] *)
Definition queue_append (m : Message) (s : state) : state :=
  mk (queue s ++ [m]) (capacity s) (overflow_policy s) (closed s)
     (suspended s) (dropped_message_count s) (dispatching s) (tasks s)
     (awaiting s) (delivered s) (dead_letters s) (resolved s)
     (appended s ++ [m]).

(** [asyncio.create_task(self._dispatch_all())] *)
Definition create_task (s : state) : state := set_tasks (S (tasks s)) s.

(** [message.to().stage().dead_letters().failed_delivery(dead_letter)] *)
Definition failed_delivery (m : Message) (s : state) : state :=
  mk (queue s) (capacity s) (overflow_policy s) (closed s)
     (suspended s) (dropped_message_count s) (dispatching s) (tasks s)
     (awaiting s) (delivered s) (dead_letters s ++ [m]) (resolved s)
     (appended s).

(** [message.deferred().resolve(None)] *)
Definition resolve_none (m : Message) (s : state) : state :=
  mk (queue s) (capacity s) (overflow_policy s) (closed s)
     (suspended s) (dropped_message_count s) (dispatching s) (tasks s)
     (awaiting s) (delivered s) (dead_letters s) (resolved s ++ [m])
     (appended s).

(** the call [message.deliver()] *)
Definition deliver (m : Message) (s : state) : state :=
  mk (queue s) (capacity s) (overflow_policy s) (closed s)
     (suspended s) (dropped_message_count s) (dispatching s) (tasks s)
     (awaiting s) (delivered s ++ [m]) (dead_letters s) (resolved s)
     (appended s).

Definition is_suspended (s : state) : bool := suspended s.
Definition is_closed (s : state) : bool := closed s.
Definition is_receivable (s : state) : bool := 0 <? length (queue s).
Definition is_full (s : state) : bool :=
  (Z.of_nat (length (queue s)) >=? capacity s)%Z.
Definition size (s : state) : nat := length (queue s).

(** the dispatch tasks alive on the mailbox *)
Definition workers (s : state) : nat := tasks s + awaiting s.

Definition notify_dropped (m : Message) (s : state) : state :=
  let s1 := set_dropped_message_count (dropped_message_count s + 1) s in
  resolve_none m s1.

Definition handle_overflow (new_message : Message) (s : state) : state :=
  match overflow_policy s with
  | DROP_OLDEST =>
      match queue s with
      | dropped :: rest =>
          let s1 := set_queue rest s in
          let s2 := notify_dropped dropped s1 in
          queue_append new_message s2
      | [] => queue_append new_message s
      end
  | DROP_NEWEST => notify_dropped new_message s
  | REJECT =>
      let s1 := failed_delivery new_message s in
      let s2 := resolve_none new_message s1 in
      set_dropped_message_count (dropped_message_count s2 + 1) s2
  end.

Definition send (m : Message) (s : state) : state :=
  if closed s then
    resolve_none m (failed_delivery m s)
  else if (Z.of_nat (length (queue s)) >=? capacity s)%Z then
    handle_overflow m s
  else
    let s1 := queue_append m s in
    if negb (suspended s1) && negb (dispatching s1)
    then create_task (set_dispatching true s1)
    else s1.

Definition receive (s : state) : option Message * state :=
  match queue s with
  | m :: rest => (Some m, set_queue rest s)
  | [] => (None, s)
  end.

(** The [finally] block of [_dispatch_all], after which the task that runs
    it is done.  [s] no longer counts that task. *)
Definition dispatch_finally (s : state) : state :=
  let s1 := set_dispatching false s in
  if negb (suspended s1) && negb (closed s1) && is_receivable s1
  then create_task (set_dispatching true s1)
  else s1.

(** One pass of the [while True] body, from its top to the next
    suspension or to the end of the task.  [s] does not count the task
    that runs it; the task is counted again when it suspends. *)
Definition dispatch_loop (s : state) : state :=
  if suspended s || closed s then dispatch_finally s
  else
    match receive s with
    | (None, s1) => dispatch_finally s1
    | (Some m, s1) =>
        let s2 := deliver m s1 in
        set_awaiting (S (awaiting s2)) s2
    end.

(** the legacy [dispatch()] *)
Definition dispatch (s : state) : state :=
  if dispatching s then s
  else if negb (suspended s) && negb (closed s) && is_receivable s
  then create_task (set_dispatching true s)
  else s.

Definition suspend (s : state) : state := set_suspended true s.

Definition resume (s : state) : state :=
  let s1 := set_suspended false s in
  if is_receivable s1 && negb (dispatching s1)
  then create_task (set_dispatching true s1)
  else s1.

Definition close (s : state) : state := set_closed true s.

Definition step (l : label) (s : state) : state :=
  match l with
  | Send m => send m s
  | Suspend => suspend s
  | Resume => resume s
  | Close => close s
  | Dispatch => dispatch s
  | Start =>
      match tasks s with
      | S n => dispatch_loop (set_tasks n s)
      | O => s
      end
  | Continue o =>
      match awaiting s with
      | S n =>
          match o with
          | Returned => dispatch_loop (set_awaiting n s)
          | Raised => dispatch_finally (set_awaiting n s)
          end
      | O => s
      end
  end.

Definition run (tr : list label) (s : state) : state :=
  fold_left (fun s l => step l s) tr s.

Definition reachable (s : state) : Prop :=
  exists c p tr, s = run tr (init c p).

End BoundedMailbox.

(** ** The two mailboxes behind one interface *)

(** Modelled from the spec: the abstract base class [Mailbox] of
    [mailbox.py], which is not among the sources ([send], [suspend],
    [resume], [close], [isSuspended], [isClosed], [isReceivable], [size]).
    A mailbox is an instance of one of its two subclasses. *)
Inductive mailbox :=
  | Array (s : ArrayMailbox.state)
  | Bounded (s : BoundedMailbox.state).

(** The constructor calls [ArrayMailbox()] and
    [BoundedMailbox(capacity, overflow_policy)]. *)
Inductive kind :=
  | Unbounded
  | BoundedBy (capacity : Z) (overflow_policy : OverflowPolicy).

Module Mailbox.

Definition new (k : kind) : mailbox :=
  match k with
  | Unbounded => Array ArrayMailbox.init
  | BoundedBy c p => Bounded (BoundedMailbox.init c p)
  end.

Definition step (l : label) (mb : mailbox) : mailbox :=
  match mb with
  | Array s => Array (ArrayMailbox.step l s)
  | Bounded s => Bounded (BoundedMailbox.step l s)
  end.

Definition run (tr : list label) (mb : mailbox) : mailbox :=
  fold_left (fun mb l => step l mb) tr mb.

Definition send (m : Message) : mailbox -> mailbox := step (Send m).
Definition suspend : mailbox -> mailbox := step Suspend.
Definition resume : mailbox -> mailbox := step Resume.
Definition close : mailbox -> mailbox := step Close.

Definition queue (mb : mailbox) : list Message :=
  match mb with
  | Array s => ArrayMailbox.queue s
  | Bounded s => BoundedMailbox.queue s
  end.
Definition is_closed (mb : mailbox) : bool :=
  match mb with
  | Array s => ArrayMailbox.is_closed s
  | Bounded s => BoundedMailbox.is_closed s
  end.
Definition is_suspended (mb : mailbox) : bool :=
  match mb with
  | Array s => ArrayMailbox.is_suspended s
  | Bounded s => BoundedMailbox.is_suspended s
  end.
Definition size (mb : mailbox) : nat :=
  match mb with
  | Array s => ArrayMailbox.size s
  | Bounded s => BoundedMailbox.size s
  end.
Definition dispatching (mb : mailbox) : bool :=
  match mb with
  | Array s => ArrayMailbox.dispatching s
  | Bounded s => BoundedMailbox.dispatching s
  end.
Definition workers (mb : mailbox) : nat :=
  match mb with
  | Array s => ArrayMailbox.workers s
  | Bounded s => BoundedMailbox.workers s
  end.
Definition delivered (mb : mailbox) : list Message :=
  match mb with
  | Array s => ArrayMailbox.delivered s
  | Bounded s => BoundedMailbox.delivered s
  end.
Definition dead_letters (mb : mailbox) : list Message :=
  match mb with
  | Array s => ArrayMailbox.dead_letters s
  | Bounded s => BoundedMailbox.dead_letters s
  end.
Definition resolved (mb : mailbox) : list Message :=
  match mb with
  | Array s => ArrayMailbox.resolved s
  | Bounded s => BoundedMailbox.resolved s
  end.
Definition appended (mb : mailbox) : list Message :=
  match mb with
  | Array s => ArrayMailbox.appended s
  | Bounded s => BoundedMailbox.appended s
  end.
(** the dropped-message count; an [ArrayMailbox] has none and drops nothing *)
Definition dropped_message_count (mb : mailbox) : nat :=
  match mb with
  | Array _ => 0
  | Bounded s => BoundedMailbox.dropped_message_count s
  end.

(** the overflow policy; an [ArrayMailbox] has none *)
Definition overflow_policy (mb : mailbox) : option OverflowPolicy :=
  match mb with
  | Array _ => None
  | Bounded s => Some (BoundedMailbox.overflow_policy s)
  end.

(** The state in which the spec asks for exactly one worker: there is work,
    and the mailbox is neither suspended nor closed. *)
Definition has_work (mb : mailbox) : bool :=
  negb (Nat.eqb (size mb) 0) && negb (is_suspended mb) && negb (is_closed mb).

(** A bounded mailbox of this kind can hold at least one message. *)
Definition capacity_positive (k : kind) : Prop :=
  match k with
  | Unbounded => True
  | BoundedBy c _ => (1 <= c)%Z
  end.

(** [n] messages fit into a fresh mailbox of this kind without overflow. *)
Definition fits (n : nat) (k : kind) : Prop :=
  match k with
  | Unbounded => True
  | BoundedBy c _ => (Z.of_nat n <= c)%Z
  end.

End Mailbox.

(** The message that a send of [m] to a full, open bounded mailbox removes:
    the head of the queue under [DROP_OLDEST] (none when the queue is
    empty), the incoming message under the other two policies. *)
Definition overflow_removes (m : Message) (s : BoundedMailbox.state)
  : option Message :=
  match BoundedMailbox.overflow_policy s with
  | DROP_OLDEST => head (BoundedMailbox.queue s)
  | DROP_NEWEST | REJECT => Some m
  end.

(** The outcome that the spec's at-most-once property asks of a sent
    message: its handler invoked once and no dead letter, or one dead
    letter and no invocation. *)
Definition exactly_one_outcome (mb : mailbox) (m : Message) : Prop :=
  (count_occ Nat.eq_dec (Mailbox.delivered mb) m = 1
   /\ count_occ Nat.eq_dec (Mailbox.dead_letters mb) m = 0)
  \/ (count_occ Nat.eq_dec (Mailbox.delivered mb) m = 0
      /\ count_occ Nat.eq_dec (Mailbox.dead_letters mb) m = 1).

(** ** Invariants of the reachable states *)

(** the dispatching flag counts the workers *)
Definition array_flag_inv (s : ArrayMailbox.state) : Prop :=
  ArrayMailbox.workers s = b2n (ArrayMailbox.dispatching s).

(** when there is work and the mailbox is open and not suspended, a
    worker is flagged *)
Definition array_work_inv (s : ArrayMailbox.state) : Prop :=
  ArrayMailbox.queue s <> [] -> ArrayMailbox.suspended s = false ->
  ArrayMailbox.closed s = false -> ArrayMailbox.dispatching s = true.

(** what was appended is what was delivered, then what is queued *)
Definition array_fifo_inv (s : ArrayMailbox.state) : Prop :=
  ArrayMailbox.delivered s ++ ArrayMailbox.queue s = ArrayMailbox.appended s.

(** [sent] is accounted for: every message handed to [send] is delivered,
    queued or settled with [None], and a dead letter comes with a
    settlement *)
Definition array_account_inv (sent : list Message) (s : ArrayMailbox.state)
  : Prop :=
  sent ≡ₚ ArrayMailbox.delivered s ++ ArrayMailbox.queue s
          ++ ArrayMailbox.resolved s
  /\ ArrayMailbox.dead_letters s `sublist_of` ArrayMailbox.resolved s
  /\ ArrayMailbox.appended s `sublist_of` sent.

Definition bounded_flag_inv (s : BoundedMailbox.state) : Prop :=
  BoundedMailbox.workers s = b2n (BoundedMailbox.dispatching s).

Definition bounded_work_inv (s : BoundedMailbox.state) : Prop :=
  (1 <= BoundedMailbox.capacity s)%Z ->
  BoundedMailbox.queue s <> [] -> BoundedMailbox.suspended s = false ->
  BoundedMailbox.closed s = false -> BoundedMailbox.dispatching s = true.

(** what was delivered, then what is queued, was appended in that order *)
Definition bounded_fifo_inv (s : BoundedMailbox.state) : Prop :=
  BoundedMailbox.delivered s ++ BoundedMailbox.queue s
    `sublist_of` BoundedMailbox.appended s.

Definition bounded_account_inv (sent : list Message)
    (s : BoundedMailbox.state) : Prop :=
  sent ≡ₚ BoundedMailbox.delivered s ++ BoundedMailbox.queue s
          ++ BoundedMailbox.resolved s
  /\ BoundedMailbox.dead_letters s `sublist_of` BoundedMailbox.resolved s
  /\ BoundedMailbox.appended s `sublist_of` sent.

(** the queue holds at most [max capacity 1] messages *)
Definition bounded_size_inv (s : BoundedMailbox.state) : Prop :=
  (Z.of_nat (BoundedMailbox.size s) <= Z.max (BoundedMailbox.capacity s) 1)%Z.

(** ** Callers of the mailbox *)

(** [n] calls of [receive()] in a row, as a caller that drains the queue by
    hand makes them; the caller stops at the first [EmptyMessage]. *)
Fixpoint array_receive_n (n : nat) (s : ArrayMailbox.state)
  : list Message * ArrayMailbox.state :=
  match n with
  | O => ([], s)
  | S n' =>
      match ArrayMailbox.receive s with
      | (Some m, s1) =>
          let (ms, s2) := array_receive_n n' s1 in (m :: ms, s2)
      | (None, s1) => ([], s1)
      end
  end.

(** The event loop giving the dispatch tasks their turns: for each outcome
    a created task may start, then a pending [deliver()] ends with that
    outcome. *)
Definition worker_turns (os : list outcome) : list label :=
  flat_map (fun o => [Start; Continue o]) os.

(** no [resume()] along the trace *)
Definition no_resume (tr : list label) : bool :=
  forallb (fun l => match l with Resume => false | _ => true end) tr.

(** What a suspended [BoundedMailbox] of capacity [n] holds after the sends
    of [msgs], and what it has dropped: [DROP_OLDEST] keeps the newest [n]
    messages, the other two policies keep the oldest [n]. *)
Definition overflow_keeps (p : OverflowPolicy) (n : nat)
    (msgs : list Message) : list Message :=
  match p with
  | DROP_OLDEST => skipn (length msgs - n) msgs
  | DROP_NEWEST | REJECT => firstn n msgs
  end.

Definition overflow_drops (p : OverflowPolicy) (n : nat)
    (msgs : list Message) : list Message :=
  match p with
  | DROP_OLDEST => firstn (length msgs - n) msgs
  | DROP_NEWEST | REJECT => skipn n msgs
  end.

(** * Proofs *)

(** ** Traces *)

Lemma sends_app (tr1 tr2 : list label) :
  sends (tr1 ++ tr2) = sends tr1 ++ sends tr2.
Proof.
  induction tr1 as [|l tr1 IH]; simpl; [reflexivity|].
  destruct l; simpl; rewrite IH; reflexivity.
Qed.

Lemma sends_map_Send (msgs : list Message) : sends (map Send msgs) = msgs.
Proof. induction msgs as [|m msgs IH]; simpl; congruence. Qed.

(** ** ArrayMailbox: unfolding a step on a state given field by field *)

Ltac array_unfold :=
  cbv beta iota zeta delta
    [ArrayMailbox.step ArrayMailbox.send ArrayMailbox.suspend
     ArrayMailbox.resume ArrayMailbox.close ArrayMailbox.dispatch
     ArrayMailbox.dispatch_loop ArrayMailbox.dispatch_finally
     ArrayMailbox.receive ArrayMailbox.create_task ArrayMailbox.queue_append
     ArrayMailbox.failed_delivery ArrayMailbox.resolve_none
     ArrayMailbox.deliver ArrayMailbox.set_queue ArrayMailbox.set_closed
     ArrayMailbox.set_suspended ArrayMailbox.set_dispatching
     ArrayMailbox.set_tasks ArrayMailbox.set_awaiting
     ArrayMailbox.is_receivable ArrayMailbox.is_closed
     ArrayMailbox.is_suspended ArrayMailbox.size ArrayMailbox.workers
     ArrayMailbox.queue ArrayMailbox.closed ArrayMailbox.suspended
     ArrayMailbox.dispatching ArrayMailbox.tasks ArrayMailbox.awaiting
     ArrayMailbox.delivered ArrayMailbox.dead_letters ArrayMailbox.resolved
     ArrayMailbox.appended negb andb orb b2n] in *.

(** every combination of label, flags, queue shape and task counts *)
Ltac array_cases s l :=
  destruct s as [q c su d t a D DL R A];
  destruct l as [m| | | | | |[|]];
  destruct c, su, d, q as [|h q], t as [|t], a as [|a];
  array_unfold; rewrite ?length_app; simpl.

Lemma array_run_app (tr1 tr2 : list label) (s : ArrayMailbox.state) :
  ArrayMailbox.run (tr1 ++ tr2) s
  = ArrayMailbox.run tr2 (ArrayMailbox.run tr1 s).
Proof. unfold ArrayMailbox.run. apply fold_left_app. Qed.

Lemma array_run_snoc (tr : list label) (l : label) (s : ArrayMailbox.state) :
  ArrayMailbox.run (tr ++ [l]) s
  = ArrayMailbox.step l (ArrayMailbox.run tr s).
Proof. rewrite array_run_app. reflexivity. Qed.

(** a property of the start state that every step keeps holds after a run *)
Lemma array_run_invariant (P : ArrayMailbox.state -> Prop) :
  (forall l s, P s -> P (ArrayMailbox.step l s)) ->
  forall tr s, P s -> P (ArrayMailbox.run tr s).
Proof.
  intros Hstep tr. induction tr as [|l tr IH]; intros s Hs; simpl; auto.
Qed.

(** *** the dispatching flag counts the workers *)

Lemma array_flag_step (l : label) (s : ArrayMailbox.state) :
  array_flag_inv s -> array_flag_inv (ArrayMailbox.step l s).
Proof.
  unfold array_flag_inv. array_cases s l; intros; lia.
Qed.

Lemma array_flag_run (tr : list label) :
  array_flag_inv (ArrayMailbox.run tr ArrayMailbox.init).
Proof. apply array_run_invariant; [apply array_flag_step | reflexivity]. Qed.

Lemma array_spawn_step (l : label) (s : ArrayMailbox.state) :
  ArrayMailbox.workers s < ArrayMailbox.workers (ArrayMailbox.step l s) ->
  ArrayMailbox.dispatching s = false
  /\ ArrayMailbox.dispatching (ArrayMailbox.step l s) = true.
Proof.
  array_cases s l; intros; try lia; auto.
Qed.

(** *** work is never left without a worker *)

Lemma array_work_step (l : label) (s : ArrayMailbox.state) :
  array_work_inv s -> array_work_inv (ArrayMailbox.step l s).
Proof.
  unfold array_work_inv. array_cases s l; intros; auto; try congruence.
  all: try (exfalso; destruct q; simpl in *; congruence).
Qed.

Lemma array_work_run (tr : list label) :
  array_work_inv (ArrayMailbox.run tr ArrayMailbox.init).
Proof.
  apply array_run_invariant; [apply array_work_step|].
  intros H; exfalso; apply H; reflexivity.
Qed.

(** *** first in, first out *)

Lemma array_fifo_step (l : label) (s : ArrayMailbox.state) :
  array_fifo_inv s -> array_fifo_inv (ArrayMailbox.step l s).
Proof.
  unfold array_fifo_inv. array_cases s l; intros H; auto.
  all: rewrite <- ?H, <- ?app_assoc; simpl; auto.
  all: try (rewrite app_nil_r in *; subst; auto).
  all: rewrite ?app_nil_r, ?app_assoc; try (rewrite H; reflexivity).
Qed.

Lemma array_fifo_run (tr : list label) :
  array_fifo_inv (ArrayMailbox.run tr ArrayMailbox.init).
Proof. apply array_run_invariant; [apply array_fifo_step | reflexivity]. Qed.

(** *** every send is accounted for *)

Lemma array_account_step (l : label) (sent : list Message)
    (s : ArrayMailbox.state) :
  array_account_inv sent s ->
  array_account_inv (sent ++ sends [l]) (ArrayMailbox.step l s).
Proof.
  unfold array_account_inv. array_cases s l; intros (HP & HD & HA).
  all: rewrite ?app_nil_r in *.
  all: split; [rewrite HP; solve_Permutation | split]; auto.
  all: try (apply sublist_app; auto; fail).
  all: try (apply sublist_inserts_r; auto; fail).
Qed.

Lemma array_account_run (tr : list label) :
  array_account_inv (sends tr) (ArrayMailbox.run tr ArrayMailbox.init).
Proof.
  induction tr as [|l tr IH] using rev_ind.
  - repeat split; simpl; auto.
  - rewrite sends_app, array_run_snoc. apply array_account_step, IH.
Qed.

(** *** a closed mailbox *)

Lemma array_closed_step (l : label) (s : ArrayMailbox.state) :
  ArrayMailbox.closed s = true ->
  ArrayMailbox.closed (ArrayMailbox.step l s) = true
  /\ ArrayMailbox.queue (ArrayMailbox.step l s) = ArrayMailbox.queue s
  /\ ArrayMailbox.delivered (ArrayMailbox.step l s) = ArrayMailbox.delivered s
  /\ ArrayMailbox.dead_letters (ArrayMailbox.step l s)
     = ArrayMailbox.dead_letters s ++ sends [l]
  /\ ArrayMailbox.resolved (ArrayMailbox.step l s)
     = ArrayMailbox.resolved s ++ sends [l].
Proof.
  array_cases s l; intros; try discriminate; rewrite ?app_nil_r; auto.
Qed.

Lemma array_closed_run (tr : list label) : forall s : ArrayMailbox.state,
  ArrayMailbox.closed s = true ->
  ArrayMailbox.closed (ArrayMailbox.run tr s) = true
  /\ ArrayMailbox.queue (ArrayMailbox.run tr s) = ArrayMailbox.queue s
  /\ ArrayMailbox.delivered (ArrayMailbox.run tr s) = ArrayMailbox.delivered s
  /\ ArrayMailbox.dead_letters (ArrayMailbox.run tr s)
     = ArrayMailbox.dead_letters s ++ sends tr
  /\ ArrayMailbox.resolved (ArrayMailbox.run tr s)
     = ArrayMailbox.resolved s ++ sends tr.
Proof.
  induction tr as [|l tr IH]; intros s Hc.
  - simpl. rewrite !app_nil_r. auto.
  - destruct (array_closed_step l s Hc) as (Hc' & Hq & Hd & Hdl & Hr).
    destruct (IH _ Hc') as (IHc & IHq & IHd & IHdl & IHr).
    change (ArrayMailbox.run (l :: tr) s)
      with (ArrayMailbox.run tr (ArrayMailbox.step l s)).
    rewrite (sends_app [l] tr : sends (l :: tr) = _).
    rewrite IHq, IHd, IHdl, IHr, Hq, Hd, Hdl, Hr, !app_assoc. auto.
Qed.

(** *** buffering while suspended, draining after resume *)

Lemma array_buffer (msgs : list Message) : forall s : ArrayMailbox.state,
  ArrayMailbox.suspended s = true -> ArrayMailbox.closed s = false ->
  ArrayMailbox.run (map Send msgs) s
  = ArrayMailbox.mk (ArrayMailbox.queue s ++ msgs) false true
      (ArrayMailbox.dispatching s) (ArrayMailbox.tasks s)
      (ArrayMailbox.awaiting s) (ArrayMailbox.delivered s)
      (ArrayMailbox.dead_letters s) (ArrayMailbox.resolved s)
      (ArrayMailbox.appended s ++ msgs).
Proof.
  induction msgs as [|m msgs IH]; intros s Hs Hc.
  - destruct s; simpl in *; subst; rewrite !app_nil_r; reflexivity.
  - change (ArrayMailbox.run (map Send (m :: msgs)) s)
      with (ArrayMailbox.run (map Send msgs) (ArrayMailbox.send m s)).
    destruct s as [q c su d t a D DL R A]; simpl in Hs, Hc; subst.
    rewrite IH by reflexivity. array_unfold.
    rewrite <- !app_assoc. reflexivity.
Qed.

Lemma array_drain (q : list Message) :
  forall D DL R A : list Message,
  ArrayMailbox.run (repeat (Continue Returned) (length q))
    (ArrayMailbox.mk q false false true 0 1 D DL R A)
  = ArrayMailbox.mk [] false false true 0 1 (D ++ q) DL R A.
Proof.
  induction q as [|h q IH]; intros D DL R A; simpl.
  - rewrite app_nil_r. reflexivity.
  - array_unfold. fold (ArrayMailbox.run (repeat (Continue Returned) (length q))).
    rewrite IH, <- app_assoc. reflexivity.
Qed.

(** ** BoundedMailbox: unfolding a step on a state given field by field *)

Ltac bounded_unfold :=
  cbv beta iota zeta delta
    [BoundedMailbox.step BoundedMailbox.send BoundedMailbox.suspend
     BoundedMailbox.resume BoundedMailbox.close BoundedMailbox.dispatch
     BoundedMailbox.dispatch_loop BoundedMailbox.dispatch_finally
     BoundedMailbox.receive BoundedMailbox.create_task
     BoundedMailbox.queue_append BoundedMailbox.failed_delivery
     BoundedMailbox.resolve_none BoundedMailbox.deliver
     BoundedMailbox.handle_overflow BoundedMailbox.notify_dropped
     BoundedMailbox.set_queue BoundedMailbox.set_closed
     BoundedMailbox.set_suspended BoundedMailbox.set_dropped_message_count
     BoundedMailbox.set_dispatching BoundedMailbox.set_tasks
     BoundedMailbox.set_awaiting BoundedMailbox.is_receivable
     BoundedMailbox.is_closed BoundedMailbox.is_suspended
     BoundedMailbox.is_full BoundedMailbox.size BoundedMailbox.workers
     BoundedMailbox.queue BoundedMailbox.capacity
     BoundedMailbox.overflow_policy BoundedMailbox.closed
     BoundedMailbox.suspended BoundedMailbox.dropped_message_count
     BoundedMailbox.dispatching BoundedMailbox.tasks BoundedMailbox.awaiting
     BoundedMailbox.delivered BoundedMailbox.dead_letters
     BoundedMailbox.resolved BoundedMailbox.appended negb andb orb b2n] in *.

(** every combination of label, policy, fullness, flags, queue shape and
    task counts; [Hfull] records the capacity test of [send] *)
Ltac bounded_cases s l :=
  destruct s as [q cap pol c su n d t a D DL R A];
  destruct l as [m| | | | | |[|]];
  [ destruct pol; destruct (Z.of_nat (length q) >=? cap)%Z eqn:Hfull | .. ];
  destruct c, su, d, q as [|h q], t as [|t], a as [|a];
  bounded_unfold;
  try match goal with H : (_ >=? _)%Z = _ |- _ => rewrite H end;
  rewrite ?length_app;
  cbn [length app Nat.ltb Nat.leb Nat.add].

Lemma bounded_run_app (tr1 tr2 : list label) (s : BoundedMailbox.state) :
  BoundedMailbox.run (tr1 ++ tr2) s
  = BoundedMailbox.run tr2 (BoundedMailbox.run tr1 s).
Proof. unfold BoundedMailbox.run. apply fold_left_app. Qed.

Lemma bounded_run_snoc (tr : list label) (l : label)
    (s : BoundedMailbox.state) :
  BoundedMailbox.run (tr ++ [l]) s
  = BoundedMailbox.step l (BoundedMailbox.run tr s).
Proof. rewrite bounded_run_app. reflexivity. Qed.

Lemma bounded_run_invariant (P : BoundedMailbox.state -> Prop) :
  (forall l s, P s -> P (BoundedMailbox.step l s)) ->
  forall tr s, P s -> P (BoundedMailbox.run tr s).
Proof.
  intros Hstep tr. induction tr as [|l tr IH]; intros s Hs; simpl; auto.
Qed.

(** *** capacity and policy are fixed at construction *)

Lemma bounded_config_step (l : label) (s : BoundedMailbox.state) :
  BoundedMailbox.capacity (BoundedMailbox.step l s) = BoundedMailbox.capacity s
  /\ BoundedMailbox.overflow_policy (BoundedMailbox.step l s)
     = BoundedMailbox.overflow_policy s.
Proof. bounded_cases s l; auto. Qed.

Lemma bounded_config_run (tr : list label) : forall s : BoundedMailbox.state,
  BoundedMailbox.capacity (BoundedMailbox.run tr s) = BoundedMailbox.capacity s
  /\ BoundedMailbox.overflow_policy (BoundedMailbox.run tr s)
     = BoundedMailbox.overflow_policy s.
Proof.
  induction tr as [|l tr IH]; intros s; simpl; auto.
  destruct (IH (BoundedMailbox.step l s)) as [-> ->].
  apply bounded_config_step.
Qed.

(** *** the dispatching flag counts the workers *)

Lemma bounded_flag_step (l : label) (s : BoundedMailbox.state) :
  bounded_flag_inv s -> bounded_flag_inv (BoundedMailbox.step l s).
Proof.
  unfold bounded_flag_inv. bounded_cases s l; intros; lia.
Qed.

Lemma bounded_flag_run (tr : list label) (c : Z) (p : OverflowPolicy) :
  bounded_flag_inv (BoundedMailbox.run tr (BoundedMailbox.init c p)).
Proof. apply bounded_run_invariant; [apply bounded_flag_step | reflexivity]. Qed.

Lemma bounded_spawn_step (l : label) (s : BoundedMailbox.state) :
  BoundedMailbox.workers s < BoundedMailbox.workers (BoundedMailbox.step l s) ->
  BoundedMailbox.dispatching s = false
  /\ BoundedMailbox.dispatching (BoundedMailbox.step l s) = true.
Proof.
  bounded_cases s l; intros; try lia; auto.
Qed.

(** *** work is never left without a worker, when the capacity is positive *)

Lemma bounded_work_step (l : label) (s : BoundedMailbox.state) :
  bounded_work_inv s -> bounded_work_inv (BoundedMailbox.step l s).
Proof.
  unfold bounded_work_inv. bounded_cases s l; intros; auto; try congruence.
  all: try (exfalso; destruct q; simpl in *; congruence).
  all: try (apply Z.geb_le in Hfull; simpl in Hfull; lia).
Qed.

Lemma bounded_work_run (tr : list label) (c : Z) (p : OverflowPolicy) :
  bounded_work_inv (BoundedMailbox.run tr (BoundedMailbox.init c p)).
Proof.
  apply bounded_run_invariant; [apply bounded_work_step|].
  intros _ H; exfalso; apply H; reflexivity.
Qed.

(** *** first in, first out *)

Lemma sublist_drop_middle (D t A : list Message) (h : Message) :
  D ++ h :: t `sublist_of` A -> D ++ t `sublist_of` A.
Proof.
  intros H. etransitivity; [|exact H].
  apply sublist_app; [reflexivity | apply sublist_cons; reflexivity].
Qed.

Lemma bounded_fifo_step (l : label) (s : BoundedMailbox.state) :
  bounded_fifo_inv s -> bounded_fifo_inv (BoundedMailbox.step l s).
Proof.
  unfold bounded_fifo_inv. bounded_cases s l; intros H; auto.
  all: rewrite ?app_nil_r in *; rewrite <- ?app_assoc; cbn [app]; auto.
  all: repeat first
    [ exact H
    | eapply sublist_drop_middle; exact H
    | progress change (h :: q ++ [m]) with ((h :: q) ++ [m])
    | rewrite app_assoc; apply sublist_app; [|reflexivity]
    | apply sublist_app; [|reflexivity] ].
Qed.

Lemma bounded_fifo_run (tr : list label) (c : Z) (p : OverflowPolicy) :
  bounded_fifo_inv (BoundedMailbox.run tr (BoundedMailbox.init c p)).
Proof.
  apply bounded_run_invariant; [apply bounded_fifo_step|].
  unfold bounded_fifo_inv; simpl; reflexivity.
Qed.

(** *** every send is accounted for *)

Lemma bounded_account_step (l : label) (sent : list Message)
    (s : BoundedMailbox.state) :
  bounded_account_inv sent s ->
  bounded_account_inv (sent ++ sends [l]) (BoundedMailbox.step l s).
Proof.
  unfold bounded_account_inv. bounded_cases s l; intros (HP & HD & HA).
  all: rewrite ?app_nil_r in *.
  all: split; [rewrite HP; solve_Permutation | split]; auto.
  all: try (apply sublist_app; auto; fail).
  all: try (apply sublist_inserts_r; auto; fail).
  all: try (apply sublist_inserts_r, sublist_inserts_r; auto; fail).
Qed.

Lemma bounded_account_run (tr : list label) (c : Z) (p : OverflowPolicy) :
  bounded_account_inv (sends tr)
    (BoundedMailbox.run tr (BoundedMailbox.init c p)).
Proof.
  induction tr as [|l tr IH] using rev_ind.
  - repeat split; simpl; auto.
  - rewrite sends_app, bounded_run_snoc. apply bounded_account_step, IH.
Qed.

(** *** the queue stays within the capacity *)

Lemma bounded_size_step (l : label) (s : BoundedMailbox.state) :
  bounded_size_inv s -> bounded_size_inv (BoundedMailbox.step l s).
Proof.
  unfold bounded_size_inv. bounded_cases s l; intros H; auto.
  all: try (apply Z.geb_le in Hfull).
  all: try (rewrite Z.geb_leb in Hfull; apply Z.leb_gt in Hfull).
  all: cbn [length] in *; lia.
Qed.

Lemma bounded_size_step_positive (l : label) (s : BoundedMailbox.state) :
  (1 <= BoundedMailbox.capacity s)%Z ->
  (Z.of_nat (BoundedMailbox.size s) <= BoundedMailbox.capacity s)%Z ->
  (Z.of_nat (BoundedMailbox.size (BoundedMailbox.step l s))
   <= BoundedMailbox.capacity s)%Z.
Proof.
  intros Hc Hs.
  assert (H : bounded_size_inv s) by (unfold bounded_size_inv; lia).
  apply (bounded_size_step l) in H. unfold bounded_size_inv in H.
  rewrite (proj1 (bounded_config_step l s)) in H. lia.
Qed.

Lemma bounded_size_receive (s : BoundedMailbox.state) :
  BoundedMailbox.size (snd (BoundedMailbox.receive s)) <= BoundedMailbox.size s
  /\ BoundedMailbox.capacity (snd (BoundedMailbox.receive s))
     = BoundedMailbox.capacity s.
Proof.
  destruct s as [q cap pol c su n d t a D DL R A]; destruct q;
    unfold BoundedMailbox.size; simpl; (split; [lia | reflexivity]).
Qed.

Lemma bounded_size_run (tr : list label) (c : Z) (p : OverflowPolicy) :
  bounded_size_inv (BoundedMailbox.run tr (BoundedMailbox.init c p)).
Proof.
  apply bounded_run_invariant; [apply bounded_size_step|].
  unfold bounded_size_inv, BoundedMailbox.size, BoundedMailbox.init.
  cbn [BoundedMailbox.queue BoundedMailbox.capacity length]. lia.
Qed.

(** *** a closed mailbox *)

Lemma bounded_closed_step (l : label) (s : BoundedMailbox.state) :
  BoundedMailbox.closed s = true ->
  BoundedMailbox.closed (BoundedMailbox.step l s) = true
  /\ BoundedMailbox.queue (BoundedMailbox.step l s) = BoundedMailbox.queue s
  /\ BoundedMailbox.delivered (BoundedMailbox.step l s)
     = BoundedMailbox.delivered s
  /\ BoundedMailbox.dead_letters (BoundedMailbox.step l s)
     = BoundedMailbox.dead_letters s ++ sends [l]
  /\ BoundedMailbox.resolved (BoundedMailbox.step l s)
     = BoundedMailbox.resolved s ++ sends [l].
Proof.
  bounded_cases s l; intros; try discriminate; rewrite ?app_nil_r; auto.
Qed.

Lemma bounded_closed_run (tr : list label) : forall s : BoundedMailbox.state,
  BoundedMailbox.closed s = true ->
  BoundedMailbox.closed (BoundedMailbox.run tr s) = true
  /\ BoundedMailbox.queue (BoundedMailbox.run tr s) = BoundedMailbox.queue s
  /\ BoundedMailbox.delivered (BoundedMailbox.run tr s)
     = BoundedMailbox.delivered s
  /\ BoundedMailbox.dead_letters (BoundedMailbox.run tr s)
     = BoundedMailbox.dead_letters s ++ sends tr
  /\ BoundedMailbox.resolved (BoundedMailbox.run tr s)
     = BoundedMailbox.resolved s ++ sends tr.
Proof.
  induction tr as [|l tr IH]; intros s Hc.
  - simpl. rewrite !app_nil_r. auto.
  - destruct (bounded_closed_step l s Hc) as (Hc' & Hq & Hd & Hdl & Hr).
    destruct (IH _ Hc') as (IHc & IHq & IHd & IHdl & IHr).
    change (BoundedMailbox.run (l :: tr) s)
      with (BoundedMailbox.run tr (BoundedMailbox.step l s)).
    rewrite (sends_app [l] tr : sends (l :: tr) = _).
    rewrite IHq, IHd, IHdl, IHr, Hq, Hd, Hdl, Hr, !app_assoc. auto.
Qed.

(** *** buffering while suspended, draining after resume *)

Lemma bounded_buffer (msgs : list Message) : forall s : BoundedMailbox.state,
  BoundedMailbox.suspended s = true -> BoundedMailbox.closed s = false ->
  (Z.of_nat (length (BoundedMailbox.queue s) + length msgs)
   <= BoundedMailbox.capacity s)%Z ->
  BoundedMailbox.run (map Send msgs) s
  = BoundedMailbox.mk (BoundedMailbox.queue s ++ msgs)
      (BoundedMailbox.capacity s) (BoundedMailbox.overflow_policy s)
      false true (BoundedMailbox.dropped_message_count s)
      (BoundedMailbox.dispatching s) (BoundedMailbox.tasks s)
      (BoundedMailbox.awaiting s) (BoundedMailbox.delivered s)
      (BoundedMailbox.dead_letters s) (BoundedMailbox.resolved s)
      (BoundedMailbox.appended s ++ msgs).
Proof.
  induction msgs as [|m msgs IH]; intros s Hs Hc Hfit.
  - destruct s; simpl in *; subst; rewrite !app_nil_r; reflexivity.
  - change (BoundedMailbox.run (map Send (m :: msgs)) s)
      with (BoundedMailbox.run (map Send msgs) (BoundedMailbox.send m s)).
    destruct s as [q cap pol c su n d t a D DL R A].
    cbn [BoundedMailbox.suspended BoundedMailbox.closed BoundedMailbox.queue
         BoundedMailbox.capacity length] in Hs, Hc, Hfit; subst.
    assert (Hroom : (Z.of_nat (length q) >=? cap)%Z = false)
      by (rewrite Z.geb_leb; apply Z.leb_gt; lia).
    assert (Hsend : BoundedMailbox.send m
              (BoundedMailbox.mk q cap pol false true n d t a D DL R A)
            = BoundedMailbox.mk (q ++ [m]) cap pol false true n d t a D DL R
                (A ++ [m]))
      by (bounded_unfold; rewrite Hroom; reflexivity).
    rewrite Hsend, IH.
    + bounded_unfold. rewrite <- !app_assoc. reflexivity.
    + reflexivity.
    + reflexivity.
    + cbn [BoundedMailbox.queue BoundedMailbox.capacity].
      rewrite length_app. cbn [length]. lia.
Qed.

Lemma bounded_drain (q : list Message) :
  forall (cap : Z) (pol : OverflowPolicy) (n : nat) (D DL R A : list Message),
  BoundedMailbox.run (repeat (Continue Returned) (length q))
    (BoundedMailbox.mk q cap pol false false n true 0 1 D DL R A)
  = BoundedMailbox.mk [] cap pol false false n true 0 1 (D ++ q) DL R A.
Proof.
  induction q as [|h q IH]; intros cap pol n D DL R A; simpl.
  - rewrite app_nil_r. reflexivity.
  - bounded_unfold.
    fold (BoundedMailbox.run (repeat (Continue Returned) (length q))).
    rewrite IH, <- app_assoc. reflexivity.
Qed.

(** *** the three overflow policies, on a full and open mailbox *)

Lemma bounded_send_drop_oldest (s : BoundedMailbox.state)
    (m h : Message) (t : list Message) :
  BoundedMailbox.overflow_policy s = DROP_OLDEST ->
  BoundedMailbox.closed s = false ->
  BoundedMailbox.is_full s = true ->
  BoundedMailbox.queue s = h :: t ->
  BoundedMailbox.send m s
  = BoundedMailbox.mk (t ++ [m]) (BoundedMailbox.capacity s) DROP_OLDEST
      false (BoundedMailbox.suspended s)
      (BoundedMailbox.dropped_message_count s + 1)
      (BoundedMailbox.dispatching s) (BoundedMailbox.tasks s)
      (BoundedMailbox.awaiting s) (BoundedMailbox.delivered s)
      (BoundedMailbox.dead_letters s) (BoundedMailbox.resolved s ++ [h])
      (BoundedMailbox.appended s ++ [m]).
Proof.
  destruct s as [q cap pol c su n d tk a D DL R A].
  unfold BoundedMailbox.is_full; simpl. intros -> -> Hfull ->.
  bounded_unfold. rewrite Hfull. reflexivity.
Qed.

Lemma bounded_send_drop_newest (s : BoundedMailbox.state) (m : Message) :
  BoundedMailbox.overflow_policy s = DROP_NEWEST ->
  BoundedMailbox.closed s = false ->
  BoundedMailbox.is_full s = true ->
  BoundedMailbox.send m s
  = BoundedMailbox.mk (BoundedMailbox.queue s) (BoundedMailbox.capacity s)
      DROP_NEWEST false (BoundedMailbox.suspended s)
      (BoundedMailbox.dropped_message_count s + 1)
      (BoundedMailbox.dispatching s) (BoundedMailbox.tasks s)
      (BoundedMailbox.awaiting s) (BoundedMailbox.delivered s)
      (BoundedMailbox.dead_letters s) (BoundedMailbox.resolved s ++ [m])
      (BoundedMailbox.appended s).
Proof.
  destruct s as [q cap pol c su n d tk a D DL R A].
  unfold BoundedMailbox.is_full; simpl. intros -> -> Hfull.
  bounded_unfold. rewrite Hfull. reflexivity.
Qed.

Lemma bounded_send_reject (s : BoundedMailbox.state) (m : Message) :
  BoundedMailbox.overflow_policy s = REJECT ->
  BoundedMailbox.closed s = false ->
  BoundedMailbox.is_full s = true ->
  BoundedMailbox.send m s
  = BoundedMailbox.mk (BoundedMailbox.queue s) (BoundedMailbox.capacity s)
      REJECT false (BoundedMailbox.suspended s)
      (BoundedMailbox.dropped_message_count s + 1)
      (BoundedMailbox.dispatching s) (BoundedMailbox.tasks s)
      (BoundedMailbox.awaiting s) (BoundedMailbox.delivered s)
      (BoundedMailbox.dead_letters s ++ [m]) (BoundedMailbox.resolved s ++ [m])
      (BoundedMailbox.appended s).
Proof.
  destruct s as [q cap pol c su n d tk a D DL R A].
  unfold BoundedMailbox.is_full; simpl. intros -> -> Hfull.
  bounded_unfold. rewrite Hfull. reflexivity.
Qed.

Lemma bounded_resolved_step (l : label) (s : BoundedMailbox.state) :
  exists more, BoundedMailbox.resolved (BoundedMailbox.step l s)
               = BoundedMailbox.resolved s ++ more.
Proof.
  bounded_cases s l; first [ by exists [] ; rewrite app_nil_r | by eexists ].
Qed.

Lemma bounded_resolved_run (tr : list label) : forall s : BoundedMailbox.state,
  exists more, BoundedMailbox.resolved (BoundedMailbox.run tr s)
               = BoundedMailbox.resolved s ++ more.
Proof.
  induction tr as [|l tr IH]; intros s.
  - exists []. simpl. by rewrite app_nil_r.
  - destruct (IH (BoundedMailbox.step l s)) as [more2 H2].
    destruct (bounded_resolved_step l s) as [more1 H1].
    exists (more1 ++ more2). simpl. fold (BoundedMailbox.run tr).
    rewrite H2, H1, app_assoc. reflexivity.
Qed.

Lemma bounded_overflow_resolves (s : BoundedMailbox.state) (m x : Message) :
  BoundedMailbox.closed s = false ->
  BoundedMailbox.is_full s = true ->
  overflow_removes m s = Some x ->
  In x (BoundedMailbox.resolved (BoundedMailbox.send m s)).
Proof.
  intros Hc Hf Hx. unfold overflow_removes in Hx.
  destruct (BoundedMailbox.overflow_policy s) eqn:Hp.
  - destruct (BoundedMailbox.queue s) as [|h t] eqn:Hq; [discriminate|].
    injection Hx as ->.
    rewrite (bounded_send_drop_oldest s m x t Hp Hc Hf Hq). simpl.
    apply in_or_app. right. left. reflexivity.
  - injection Hx as <-. rewrite (bounded_send_drop_newest s m Hp Hc Hf).
    simpl. apply in_or_app. right. left. reflexivity.
  - injection Hx as <-. rewrite (bounded_send_reject s m Hp Hc Hf).
    simpl. apply in_or_app. right. left. reflexivity.
Qed.

(** ** Lists *)

Lemma sublist_count_occ (l1 l2 : list Message) (m : Message) :
  l1 `sublist_of` l2 ->
  count_occ Nat.eq_dec l1 m <= count_occ Nat.eq_dec l2 m.
Proof.
  induction 1 as [|x l1 l2 _ IH|x l1 l2 _ IH]; simpl; auto.
  - destruct (Nat.eq_dec x m); lia.
  - destruct (Nat.eq_dec x m); lia.
Qed.

Lemma nodup_delivered_resolved (D Q R : list Message) (x : Message) :
  NoDup (D ++ Q ++ R) -> In x R -> ~ In x D.
Proof.
  intros Hnd HR HD. apply NoDup_app in Hnd as (_ & Hdis & _).
  apply (Hdis x).
  - apply list_elem_of_In, HD.
  - apply list_elem_of_In, in_or_app. right. exact HR.
Qed.

(** ** The interface follows its two implementations *)

Lemma mailbox_run_array (tr : list label) : forall s : ArrayMailbox.state,
  Mailbox.run tr (Array s) = Array (ArrayMailbox.run tr s).
Proof. induction tr as [|l tr IH]; intros s; simpl; auto. Qed.

Lemma mailbox_run_bounded (tr : list label) : forall s : BoundedMailbox.state,
  Mailbox.run tr (Bounded s) = Bounded (BoundedMailbox.run tr s).
Proof. induction tr as [|l tr IH]; intros s; simpl; auto. Qed.

Lemma mailbox_run_app (tr1 tr2 : list label) (mb : mailbox) :
  Mailbox.run (tr1 ++ tr2) mb = Mailbox.run tr2 (Mailbox.run tr1 mb).
Proof. unfold Mailbox.run. apply fold_left_app. Qed.

Ltac mailbox_cases k :=
  destruct k as [|c p]; unfold Mailbox.new;
  rewrite ?mailbox_run_array, ?mailbox_run_bounded.

(** * The claims *)

(** C1.  In every state that a fresh mailbox of either kind reaches by
    sends, suspends, resumes, closes, legacy dispatches and steps of its
    dispatch tasks, at most one dispatch worker is alive, and the
    [_dispatching] flag says whether one is.  A step raises the number of
    workers only if it finds the flag false, and it sets the flag. *)
Theorem single_dispatch_worker (k : kind) (tr : list label) :
  let mb := Mailbox.run tr (Mailbox.new k) in
  Mailbox.workers mb <= 1
  /\ Mailbox.workers mb = b2n (Mailbox.dispatching mb)
  /\ forall l : label,
       Mailbox.workers mb < Mailbox.workers (Mailbox.step l mb) ->
       Mailbox.dispatching mb = false
       /\ Mailbox.dispatching (Mailbox.step l mb) = true.
Proof.
  mailbox_cases k; cbn zeta.
  - pose proof (array_flag_run tr) as H. unfold array_flag_inv in H.
    cbn [Mailbox.workers Mailbox.dispatching Mailbox.step].
    repeat split.
    + rewrite H. destruct (ArrayMailbox.dispatching _); simpl; lia.
    + exact H.
    + eapply proj1, array_spawn_step; eassumption.
    + eapply proj2, array_spawn_step; eassumption.
  - pose proof (bounded_flag_run tr c p) as H. unfold bounded_flag_inv in H.
    cbn [Mailbox.workers Mailbox.dispatching Mailbox.step].
    repeat split.
    + rewrite H. destruct (BoundedMailbox.dispatching _); simpl; lia.
    + exact H.
    + eapply proj1, bounded_spawn_step; eassumption.
    + eapply proj2, bounded_spawn_step; eassumption.
Qed.

Lemma single_dispatch_worker_witness :
  let mb := Mailbox.run [] (Mailbox.new Unbounded) in
  Mailbox.workers mb < Mailbox.workers (Mailbox.step (Send 1) mb)
  /\ Mailbox.dispatching mb = false
  /\ Mailbox.dispatching (Mailbox.step (Send 1) mb) = true.
Proof.
  assert (H : Mailbox.workers (Mailbox.run [] (Mailbox.new Unbounded))
              < Mailbox.workers
                  (Mailbox.step (Send 1)
                     (Mailbox.run [] (Mailbox.new Unbounded))))
    by (vm_compute; lia).
  split; [exact H|].
  exact (proj2 (proj2 (single_dispatch_worker Unbounded [])) (Send 1) H).
Defined.

(** C2.  Delivery is first in, first out over the successful appends: the
    messages delivered, followed by those still queued, are a subsequence
    of the messages appended to the queue, in the order of the appends (for
    an [ArrayMailbox] they are all of them), and the appends are a
    subsequence of the sends.  A message that an overflow policy removes
    from a full bounded mailbox is never delivered, when every send carries
    a message of its own. *)
Theorem fifo_delivery :
  (forall (k : kind) (tr : list label),
     let mb := Mailbox.run tr (Mailbox.new k) in
     Mailbox.delivered mb ++ Mailbox.queue mb
       `sublist_of` Mailbox.appended mb
     /\ Mailbox.appended mb `sublist_of` sends tr)
  /\ (forall tr : list label,
        let mb := Mailbox.run tr (Mailbox.new Unbounded) in
        Mailbox.delivered mb ++ Mailbox.queue mb = Mailbox.appended mb)
  /\ (forall (c : Z) (p : OverflowPolicy) (tr1 tr2 : list label)
             (m x : Message),
        let s := BoundedMailbox.run tr1 (BoundedMailbox.init c p) in
        BoundedMailbox.closed s = false ->
        BoundedMailbox.is_full s = true ->
        overflow_removes m s = Some x ->
        NoDup (sends (tr1 ++ Send m :: tr2)) ->
        ~ In x (BoundedMailbox.delivered
                  (BoundedMailbox.run (tr1 ++ Send m :: tr2)
                     (BoundedMailbox.init c p)))).
Proof.
  split; [|split].
  - intros k tr. mailbox_cases k; cbn zeta;
      cbn [Mailbox.delivered Mailbox.queue Mailbox.appended].
    + split.
      * rewrite (array_fifo_run tr). reflexivity.
      * apply (array_account_run tr).
    + split.
      * apply (bounded_fifo_run tr c p).
      * apply (bounded_account_run tr c p).
  - intros tr. unfold Mailbox.new. rewrite mailbox_run_array. cbn zeta.
    apply (array_fifo_run tr).
  - intros c p tr1 tr2 m x s Hc Hf Hx Hnd.
    destruct (bounded_account_run (tr1 ++ Send m :: tr2) c p) as (HP & _ & _).
    rewrite HP in Hnd.
    eapply nodup_delivered_resolved; [exact Hnd|].
    rewrite bounded_run_app.
    change (BoundedMailbox.run (Send m :: tr2)
              (BoundedMailbox.run tr1 (BoundedMailbox.init c p)))
      with (BoundedMailbox.run tr2 (BoundedMailbox.send m s)).
    destruct (bounded_resolved_run tr2 (BoundedMailbox.send m s)) as [more ->].
    apply in_or_app. left.
    apply bounded_overflow_resolves; assumption.
Qed.

Lemma fifo_delivery_witness :
  let tr1 := [Suspend; Send 1; Send 2] in
  let tr2 := [Resume; Start; Continue Returned; Continue Returned] in
  let s := BoundedMailbox.run tr1 (BoundedMailbox.init 2 DROP_OLDEST) in
  (BoundedMailbox.closed s = false
   /\ BoundedMailbox.is_full s = true
   /\ overflow_removes 3 s = Some 1
   /\ NoDup (sends (tr1 ++ Send 3 :: tr2)))
  /\ ~ In 1 (BoundedMailbox.delivered
               (BoundedMailbox.run (tr1 ++ Send 3 :: tr2)
                  (BoundedMailbox.init 2 DROP_OLDEST))).
Proof.
  assert (Hnd : NoDup (sends ([Suspend; Send 1; Send 2]
                 ++ Send 3 :: [Resume; Start; Continue Returned;
                               Continue Returned])))
    by (simpl; compute_done).
  split.
  - repeat split; try reflexivity. exact Hnd.
  - apply (proj2 (proj2 fifo_delivery) 2%Z DROP_OLDEST
             [Suspend; Send 1; Send 2]
             [Resume; Start; Continue Returned; Continue Returned] 3 1);
      try reflexivity.
    exact Hnd.
Defined.

Lemma array_no_dead_letter_step (l : label) (s : ArrayMailbox.state) :
  ArrayMailbox.closed s = false ->
  ArrayMailbox.dead_letters (ArrayMailbox.step l s)
  = ArrayMailbox.dead_letters s.
Proof. array_cases s l; intros; try discriminate; reflexivity. Qed.

Lemma bounded_no_dead_letter_step (l : label) (s : BoundedMailbox.state) :
  BoundedMailbox.closed s = false ->
  BoundedMailbox.overflow_policy s <> REJECT ->
  BoundedMailbox.dead_letters (BoundedMailbox.step l s)
  = BoundedMailbox.dead_letters s.
Proof.
  bounded_cases s l; intros; try discriminate; try congruence; reflexivity.
Qed.

(** C3, as the code has it.  Every message handed to [send] is accounted
    for once: delivered, still queued, or settled with [None] by the
    mailbox.  A dead letter always comes with such a settlement, so no send
    is both delivered and dead-lettered, and none more than once.  An open
    mailbox whose policy is not [REJECT] writes no dead letter in any step:
    the messages that [DROP_OLDEST] evicts or [DROP_NEWEST] drops are only
    settled with [None]. *)
Theorem every_send_accounted :
  (forall (k : kind) (tr : list label),
     let mb := Mailbox.run tr (Mailbox.new k) in
     sends tr ≡ₚ Mailbox.delivered mb ++ Mailbox.queue mb
                 ++ Mailbox.resolved mb
     /\ Mailbox.dead_letters mb `sublist_of` Mailbox.resolved mb
     /\ forall m : Message,
          count_occ Nat.eq_dec (Mailbox.delivered mb) m
          + count_occ Nat.eq_dec (Mailbox.dead_letters mb) m
          <= count_occ Nat.eq_dec (sends tr) m)
  /\ (forall (mb : mailbox) (l : label),
        Mailbox.is_closed mb = false ->
        Mailbox.overflow_policy mb <> Some REJECT ->
        Mailbox.dead_letters (Mailbox.step l mb) = Mailbox.dead_letters mb).
Proof.
  split.
  - intros k tr mb.
    assert (H : sends tr ≡ₚ Mailbox.delivered mb ++ Mailbox.queue mb
                            ++ Mailbox.resolved mb
                /\ Mailbox.dead_letters mb `sublist_of` Mailbox.resolved mb).
    { subst mb. mailbox_cases k.
      - destruct (array_account_run tr) as (HP & HD & _). split; assumption.
      - destruct (bounded_account_run tr c p) as (HP & HD & _).
        split; assumption. }
    destruct H as [HP HD]. repeat split; try assumption.
    intros m.
    apply (Permutation_count_occ Nat.eq_dec) with (x := m) in HP.
    rewrite HP, !count_occ_app.
    apply Nat.add_le_mono_l.
    etransitivity; [exact (sublist_count_occ _ _ m HD) | apply Nat.le_add_l].
  - intros [s|s] l Hc Hp; cbn [Mailbox.step Mailbox.dead_letters].
    + apply array_no_dead_letter_step, Hc.
    + apply bounded_no_dead_letter_step; [exact Hc|].
      intros E. apply Hp. simpl. rewrite E. reflexivity.
Qed.

Lemma every_send_accounted_witness :
  let mb := Mailbox.run [Suspend; Send 1]
              (Mailbox.new (BoundedBy 1 DROP_NEWEST)) in
  (Mailbox.is_closed mb = false
   /\ Mailbox.overflow_policy mb <> Some REJECT)
  /\ Mailbox.dead_letters (Mailbox.step (Send 2) mb)
     = Mailbox.dead_letters mb.
Proof.
  split.
  - split; [reflexivity | discriminate].
  - apply (proj2 every_send_accounted); [reflexivity | discriminate].
Defined.

(** C3, as stated, fails on the code.  In each of these runs message 1 was
    sent, the mailbox has come to rest (no worker is left), and message 1
    was neither delivered nor given to dead letters: it was evicted by
    [DROP_OLDEST], dropped by [DROP_NEWEST], or was still queued when
    [close()] was called. *)
Lemma exactly_one_outcome_counterexample :
  (let tr := [Suspend; Send 1; Send 2; Resume; Start; Continue Returned;
              Continue Returned] in
   let mb := Mailbox.run tr (Mailbox.new (BoundedBy 1 DROP_OLDEST)) in
   In 1 (sends tr) /\ Mailbox.workers mb = 0 /\ Mailbox.queue mb = []
   /\ ~ exactly_one_outcome mb 1)
  /\ (let tr := [Suspend; Send 2; Send 1; Resume; Start; Continue Returned;
                 Continue Returned] in
      let mb := Mailbox.run tr (Mailbox.new (BoundedBy 1 DROP_NEWEST)) in
      In 1 (sends tr) /\ Mailbox.workers mb = 0 /\ Mailbox.queue mb = []
      /\ ~ exactly_one_outcome mb 1)
  /\ (let tr := [Send 1; Close; Start] in
      let mb := Mailbox.run tr (Mailbox.new Unbounded) in
      In 1 (sends tr) /\ Mailbox.workers mb = 0 /\ Mailbox.queue mb = [1]
      /\ ~ exactly_one_outcome mb 1).
Proof.
  unfold exactly_one_outcome.
  repeat split; try (simpl; tauto); try reflexivity.
  all: vm_compute; intros [[H _]|[_ H]]; discriminate H.
Qed.

(** C4.  Once a mailbox is closed it stays closed, its queue and the list
    of handler invocations never change again, and every later send gives
    exactly one dead letter for its message and settles the message's
    completion with [None]: the dead letters written after the close are the
    messages sent after it, one for one. *)
Theorem closed_mailbox_dead_letters (mb : mailbox) (tr : list label) :
  Mailbox.is_closed mb = true ->
  let mb' := Mailbox.run tr mb in
  Mailbox.is_closed mb' = true
  /\ Mailbox.queue mb' = Mailbox.queue mb
  /\ Mailbox.delivered mb' = Mailbox.delivered mb
  /\ Mailbox.dead_letters mb' = Mailbox.dead_letters mb ++ sends tr
  /\ Mailbox.resolved mb' = Mailbox.resolved mb ++ sends tr
  /\ length (Mailbox.dead_letters mb')
     = length (Mailbox.dead_letters mb) + length (sends tr).
Proof.
  intros Hc mb'. subst mb'.
  assert (H : Mailbox.is_closed (Mailbox.run tr mb) = true
    /\ Mailbox.queue (Mailbox.run tr mb) = Mailbox.queue mb
    /\ Mailbox.delivered (Mailbox.run tr mb) = Mailbox.delivered mb
    /\ Mailbox.dead_letters (Mailbox.run tr mb)
       = Mailbox.dead_letters mb ++ sends tr
    /\ Mailbox.resolved (Mailbox.run tr mb)
       = Mailbox.resolved mb ++ sends tr).
  { destruct mb as [s|s].
    - rewrite mailbox_run_array. apply array_closed_run, Hc.
    - rewrite mailbox_run_bounded. apply bounded_closed_run, Hc. }
  destruct H as (H1 & H2 & H3 & H4 & H5).
  repeat split; try assumption.
  rewrite H4, length_app. reflexivity.
Qed.

Lemma closed_mailbox_dead_letters_witness :
  let mb := Mailbox.run [Send 1; Close] (Mailbox.new Unbounded) in
  let mb' := Mailbox.run [Send 2; Start; Send 3] mb in
  Mailbox.is_closed mb = true
  /\ Mailbox.delivered mb' = Mailbox.delivered mb
  /\ Mailbox.dead_letters mb' = [2; 3].
Proof.
  pose proof (closed_mailbox_dead_letters
                (Mailbox.run [Send 1; Close] (Mailbox.new Unbounded))
                [Send 2; Start; Send 3] eq_refl) as (_ & _ & Hd & Hdl & _).
  split; [reflexivity|]. split; [exact Hd | exact Hdl].
Defined.

(** *** an open mailbox that can hold a message is not empty after a send *)

Lemma array_send_has_work (m : Message) (s : ArrayMailbox.state) :
  ArrayMailbox.closed s = false ->
  ArrayMailbox.queue (ArrayMailbox.send m s) <> []
  /\ ArrayMailbox.closed (ArrayMailbox.send m s) = false
  /\ ArrayMailbox.suspended (ArrayMailbox.send m s) = ArrayMailbox.suspended s.
Proof.
  destruct s as [q c su d t a D DL R A]; cbn [ArrayMailbox.closed].
  intros ->. array_unfold. destruct su, d; cbn; repeat split.
  all: intros E; apply app_eq_nil in E as [_ E]; discriminate E.
Qed.

Lemma bounded_send_has_work (m : Message) (s : BoundedMailbox.state) :
  (1 <= BoundedMailbox.capacity s)%Z ->
  BoundedMailbox.closed s = false ->
  BoundedMailbox.queue (BoundedMailbox.send m s) <> []
  /\ BoundedMailbox.closed (BoundedMailbox.send m s) = false
  /\ BoundedMailbox.suspended (BoundedMailbox.send m s)
     = BoundedMailbox.suspended s.
Proof.
  destruct s as [q cap pol c su n d t a D DL R A];
    cbn [BoundedMailbox.closed BoundedMailbox.capacity].
  intros Hcap ->. bounded_unfold.
  destruct (Z.of_nat (length q) >=? cap)%Z eqn:Hfull;
    destruct pol, su, d, q as [|h q]; cbn; repeat split.
  all: try (apply Z.geb_le in Hfull; simpl in Hfull; lia).
  all: try discriminate.
  all: intros E; apply app_eq_nil in E as [_ E]; discriminate E.
Qed.

Lemma has_work_true (mb : mailbox) :
  Mailbox.has_work mb = true ->
  Mailbox.queue mb <> [] /\ Mailbox.is_suspended mb = false
  /\ Mailbox.is_closed mb = false.
Proof.
  unfold Mailbox.has_work. intros H.
  apply andb_prop in H as [H Hc]. apply andb_prop in H as [Hq Hs].
  apply negb_true_iff in Hc, Hs, Hq. repeat split; try assumption.
  intros E. apply Nat.eqb_neq in Hq. apply Hq.
  destruct mb; cbn [Mailbox.size Mailbox.queue] in *;
    unfold ArrayMailbox.size, BoundedMailbox.size; rewrite E; reflexivity.
Qed.

Lemma mailbox_worker_when_work (k : kind) (tr : list label) :
  Mailbox.capacity_positive k ->
  let mb := Mailbox.run tr (Mailbox.new k) in
  Mailbox.queue mb <> [] -> Mailbox.is_suspended mb = false ->
  Mailbox.is_closed mb = false -> Mailbox.workers mb = 1.
Proof.
  intros Hk. mailbox_cases k; cbn zeta;
    cbn [Mailbox.queue Mailbox.is_suspended Mailbox.is_closed Mailbox.workers];
    intros Hq Hs Hc.
  - rewrite (array_flag_run tr), (array_work_run tr Hq Hs Hc). reflexivity.
  - rewrite (bounded_flag_run tr c p).
    rewrite (bounded_work_run tr c p); try assumption; [reflexivity|].
    rewrite (proj1 (bounded_config_run tr _)). exact Hk.
Qed.

Lemma mailbox_send_has_work (k : kind) (tr : list label) (m : Message) :
  Mailbox.capacity_positive k ->
  Mailbox.is_closed (Mailbox.run tr (Mailbox.new k)) = false ->
  Mailbox.queue (Mailbox.send m (Mailbox.run tr (Mailbox.new k))) <> []
  /\ Mailbox.is_closed (Mailbox.send m (Mailbox.run tr (Mailbox.new k)))
     = false
  /\ Mailbox.is_suspended (Mailbox.send m (Mailbox.run tr (Mailbox.new k)))
     = Mailbox.is_suspended (Mailbox.run tr (Mailbox.new k)).
Proof.
  intros Hk. mailbox_cases k; unfold Mailbox.send;
    cbn [Mailbox.queue Mailbox.is_suspended Mailbox.is_closed Mailbox.step];
    intros Hc.
  - apply (array_send_has_work m _ Hc).
  - apply (bounded_send_has_work m); [|exact Hc].
    rewrite (proj1 (bounded_config_run tr _)). exact Hk.
Qed.

Lemma mailbox_flag_run (k : kind) (tr : list label) :
  Mailbox.workers (Mailbox.run tr (Mailbox.new k))
  = b2n (Mailbox.dispatching (Mailbox.run tr (Mailbox.new k))).
Proof.
  mailbox_cases k; cbn [Mailbox.workers Mailbox.dispatching].
  - apply array_flag_run.
  - apply bounded_flag_run.
Qed.

(** C5, as the code has it.  In every reachable state of an [ArrayMailbox],
    and of a [BoundedMailbox] whose capacity is at least 1, the workers are
    as many as the [_dispatching] flag says, none or one; when the queue is
    not empty and the mailbox is neither suspended nor closed there is
    exactly one.  So a send to an open mailbox that is not suspended, full
    or not, leaves one worker running. *)
Theorem worker_when_work (k : kind) (tr : list label) :
  Mailbox.capacity_positive k ->
  let mb := Mailbox.run tr (Mailbox.new k) in
  Mailbox.workers mb = b2n (Mailbox.dispatching mb)
  /\ (Mailbox.has_work mb = true -> Mailbox.workers mb = 1)
  /\ forall m : Message,
       Mailbox.is_suspended mb = false -> Mailbox.is_closed mb = false ->
       Mailbox.workers (Mailbox.send m mb) = 1.
Proof.
  intros Hk mb. split; [apply mailbox_flag_run|split].
  - intros H. apply has_work_true in H as (Hq & Hs & Hc).
    apply (mailbox_worker_when_work k tr Hk Hq Hs Hc).
  - intros m Hs Hc.
    change (Mailbox.send m mb) with (Mailbox.step (Send m) mb).
    assert (E : Mailbox.step (Send m) mb
                = Mailbox.run (tr ++ [Send m]) (Mailbox.new k))
      by (rewrite mailbox_run_app; reflexivity).
    destruct (mailbox_send_has_work k tr m Hk Hc) as (Hq' & Hc' & Hs').
    fold mb in Hq', Hc', Hs'. unfold Mailbox.send in Hq', Hc', Hs'.
    rewrite E in *.
    apply (mailbox_worker_when_work k (tr ++ [Send m]) Hk);
      [exact Hq' | rewrite Hs'; exact Hs | exact Hc'].
Qed.

Lemma worker_when_work_witness :
  let k := BoundedBy 1 DROP_OLDEST in
  let mb := Mailbox.run [Suspend; Send 1; Send 2; Resume] (Mailbox.new k) in
  Mailbox.capacity_positive k
  /\ Mailbox.has_work mb = true
  /\ Mailbox.workers mb = 1.
Proof.
  assert (Hk : Mailbox.capacity_positive (BoundedBy 1 DROP_OLDEST))
    by (simpl; lia).
  split; [exact Hk|]. split; [reflexivity|].
  apply (proj1 (proj2 (worker_when_work (BoundedBy 1 DROP_OLDEST)
                         [Suspend; Send 1; Send 2; Resume] Hk))).
  reflexivity.
Defined.

(** C5, as stated, fails on the code: a worker is alive in states that have
    no work.  After [send; suspend] the task made by the send is still
    there though the mailbox is suspended, and while a worker waits in
    [deliver] for the last message the queue is empty. *)
Lemma worker_iff_work_counterexample :
  (let mb := Mailbox.run [Send 1; Suspend] (Mailbox.new Unbounded) in
   Mailbox.has_work mb = false /\ Mailbox.workers mb = 1)
  /\ (let mb := Mailbox.run [Send 1; Start] (Mailbox.new Unbounded) in
      Mailbox.has_work mb = false /\ Mailbox.queue mb = []
      /\ Mailbox.workers mb = 1).
Proof. repeat split. Qed.

(** The code at capacity 0 with [DROP_OLDEST]: the send appends through the
    overflow path, which starts no worker. *)
Lemma zero_capacity_send_starts_no_worker :
  let mb := Mailbox.send 1 (Mailbox.new (BoundedBy 0 DROP_OLDEST)) in
  Mailbox.has_work mb = true /\ Mailbox.queue mb = [1]
  /\ Mailbox.workers mb = 0.
Proof. repeat split. Qed.

(** *** a resumed worker delivers the whole queue *)

Lemma array_resume_drains (msgs D DL R A : list Message) :
  let s := ArrayMailbox.resume
             (ArrayMailbox.mk msgs false true false 0 0 D DL R A) in
  ArrayMailbox.suspended s = false
  /\ ArrayMailbox.queue s = msgs
  /\ ArrayMailbox.workers s = (if msgs is [] then 0 else 1)
  /\ ArrayMailbox.run (Start :: repeat (Continue Returned) (length msgs)) s
     = ArrayMailbox.mk [] false false false 0 0 (D ++ msgs) DL R A.
Proof.
  destruct msgs as [|m msgs].
  - cbn. rewrite app_nil_r. auto.
  - repeat split.
    cbn [length repeat]. rewrite repeat_cons, app_comm_cons, array_run_app.
    change (ArrayMailbox.run (Start :: repeat (Continue Returned) (length msgs))
              (ArrayMailbox.resume
                 (ArrayMailbox.mk (m :: msgs) false true false 0 0 D DL R A)))
      with (ArrayMailbox.run (repeat (Continue Returned) (length msgs))
              (ArrayMailbox.mk msgs false false true 0 1 (D ++ [m]) DL R A)).
    rewrite array_drain, <- app_assoc. reflexivity.
Qed.

Lemma bounded_resume_drains (cap : Z) (pol : OverflowPolicy) (n : nat)
    (msgs D DL R A : list Message) :
  let s := BoundedMailbox.resume
             (BoundedMailbox.mk msgs cap pol false true n false 0 0 D DL R A) in
  BoundedMailbox.suspended s = false
  /\ BoundedMailbox.queue s = msgs
  /\ BoundedMailbox.workers s = (if msgs is [] then 0 else 1)
  /\ BoundedMailbox.run (Start :: repeat (Continue Returned) (length msgs)) s
     = BoundedMailbox.mk [] cap pol false false n false 0 0 (D ++ msgs) DL R A.
Proof.
  destruct msgs as [|m msgs].
  - cbn. rewrite app_nil_r. auto.
  - repeat split.
    cbn [length repeat]. rewrite repeat_cons, app_comm_cons, bounded_run_app.
    change (BoundedMailbox.run
              (Start :: repeat (Continue Returned) (length msgs))
              (BoundedMailbox.resume
                 (BoundedMailbox.mk (m :: msgs) cap pol false true n false 0 0
                    D DL R A)))
      with (BoundedMailbox.run (repeat (Continue Returned) (length msgs))
              (BoundedMailbox.mk msgs cap pol false false n true 0 1
                 (D ++ [m]) DL R A)).
    rewrite bounded_drain, <- app_assoc. reflexivity.
Qed.

(** C6, as the code has it.  On a fresh [ArrayMailbox], or a fresh
    [BoundedMailbox] whose capacity the messages do not exceed: after
    [suspend()] and the sends of [msgs], no handler has been invoked and the
    queue holds exactly [msgs]; [resume()] then clears the suspended flag
    and, when [msgs] is not empty, starts one worker; that worker, once it
    has run through as many returning deliveries as there are messages, has
    delivered [msgs] in order, emptied the queue and ended. *)
Theorem suspend_buffers_resume_drains (k : kind) (msgs : list Message) :
  Mailbox.fits (length msgs) k ->
  let mb := Mailbox.run (Suspend :: map Send msgs) (Mailbox.new k) in
  Mailbox.delivered mb = []
  /\ Mailbox.queue mb = msgs
  /\ Mailbox.size mb = length msgs
  /\ let mb' := Mailbox.resume mb in
     Mailbox.is_suspended mb' = false
     /\ Mailbox.queue mb' = msgs
     /\ Mailbox.workers mb' = (if msgs is [] then 0 else 1)
     /\ let mb'' :=
          Mailbox.run (Start :: repeat (Continue Returned) (length msgs)) mb'
        in Mailbox.delivered mb'' = msgs
           /\ Mailbox.queue mb'' = []
           /\ Mailbox.workers mb'' = 0.
Proof.
  intros Hfit. mailbox_cases k; cbn zeta.
  - change (ArrayMailbox.run (Suspend :: map Send msgs) ArrayMailbox.init)
      with (ArrayMailbox.run (map Send msgs)
              (ArrayMailbox.suspend ArrayMailbox.init)).
    rewrite array_buffer by reflexivity.
    cbn [ArrayMailbox.suspend ArrayMailbox.init ArrayMailbox.set_suspended
         ArrayMailbox.queue ArrayMailbox.dispatching ArrayMailbox.tasks
         ArrayMailbox.awaiting ArrayMailbox.delivered
         ArrayMailbox.dead_letters ArrayMailbox.resolved
         ArrayMailbox.appended app].
    destruct (array_resume_drains msgs [] [] [] msgs) as (Hs & Hq & Hw & Hrun).
    unfold Mailbox.resume.
    cbn [Mailbox.step Mailbox.delivered Mailbox.queue Mailbox.size
         Mailbox.is_suspended Mailbox.workers ArrayMailbox.step].
    rewrite mailbox_run_array, Hrun.
    repeat split; assumption.
  - cbn [Mailbox.fits] in Hfit.
    change (BoundedMailbox.run (Suspend :: map Send msgs)
              (BoundedMailbox.init c p))
      with (BoundedMailbox.run (map Send msgs)
              (BoundedMailbox.suspend (BoundedMailbox.init c p))).
    rewrite bounded_buffer by (try reflexivity; simpl; lia).
    cbn [BoundedMailbox.suspend BoundedMailbox.init
         BoundedMailbox.set_suspended BoundedMailbox.queue
         BoundedMailbox.capacity BoundedMailbox.overflow_policy
         BoundedMailbox.dropped_message_count BoundedMailbox.dispatching
         BoundedMailbox.tasks BoundedMailbox.awaiting BoundedMailbox.delivered
         BoundedMailbox.dead_letters BoundedMailbox.resolved
         BoundedMailbox.appended app].
    destruct (bounded_resume_drains c p 0 msgs [] [] [] msgs)
      as (Hs & Hq & Hw & Hrun).
    unfold Mailbox.resume.
    cbn [Mailbox.step Mailbox.delivered Mailbox.queue Mailbox.size
         Mailbox.is_suspended Mailbox.workers BoundedMailbox.step].
    rewrite mailbox_run_bounded, Hrun.
    repeat split; assumption.
Qed.

Lemma suspend_buffers_resume_drains_witness :
  let k := BoundedBy 3 DROP_NEWEST in
  let mb := Mailbox.run (Suspend :: map Send [4; 5; 6]) (Mailbox.new k) in
  Mailbox.fits (length [4; 5; 6]) k
  /\ Mailbox.delivered mb = []
  /\ Mailbox.queue mb = [4; 5; 6].
Proof.
  assert (Hfit : Mailbox.fits (length [4; 5; 6]) (BoundedBy 3 DROP_NEWEST))
    by (simpl; lia).
  split; [exact Hfit|].
  pose proof (suspend_buffers_resume_drains (BoundedBy 3 DROP_NEWEST)
                [4; 5; 6] Hfit) as (Hd & Hq & _).
  split; [exact Hd | exact Hq].
Defined.

(** C6, as stated, fails on the code for a bounded mailbox that overflows:
    with capacity 1 and [DROP_NEWEST], after [suspend()] and two sends only
    one message is queued, and after [resume()] only that one is ever
    delivered. *)
Lemma suspend_buffers_all_counterexample :
  let k := BoundedBy 1 DROP_NEWEST in
  let mb := Mailbox.run (Suspend :: map Send [1; 2]) (Mailbox.new k) in
  let mb'' := Mailbox.run (Start :: repeat (Continue Returned) 2)
                (Mailbox.resume mb) in
  Mailbox.size mb = 1
  /\ Mailbox.queue mb = [1]
  /\ Mailbox.delivered mb'' = [1]
  /\ Mailbox.queue mb'' = []
  /\ Mailbox.workers mb'' = 0.
Proof. repeat split. Qed.

(** C7.  On an open [BoundedMailbox] with policy [DROP_OLDEST] whose queue
    is at capacity, [send(m)] evicts the head of the queue, settles the
    evicted message's completion with [None], raises the dropped-message
    count by one and appends [m] at the tail; nothing is delivered or given
    to dead letters.  With capacity 3, after a suspend, the sends of 1 to 5,
    and a resume, the deliveries are 3, 4, 5 and the count is 2. *)
Theorem drop_oldest_overflow :
  (forall (s : BoundedMailbox.state) (m h : Message) (t : list Message),
     BoundedMailbox.overflow_policy s = DROP_OLDEST ->
     BoundedMailbox.closed s = false ->
     BoundedMailbox.is_full s = true ->
     BoundedMailbox.queue s = h :: t ->
     let s' := BoundedMailbox.send m s in
     BoundedMailbox.queue s' = t ++ [m]
     /\ BoundedMailbox.resolved s' = BoundedMailbox.resolved s ++ [h]
     /\ BoundedMailbox.dropped_message_count s'
        = BoundedMailbox.dropped_message_count s + 1
     /\ BoundedMailbox.delivered s' = BoundedMailbox.delivered s
     /\ BoundedMailbox.dead_letters s' = BoundedMailbox.dead_letters s
     /\ BoundedMailbox.workers s' = BoundedMailbox.workers s)
  /\ (let s := BoundedMailbox.run (Suspend :: map Send [1; 2; 3; 4; 5])
                 (BoundedMailbox.init 3 DROP_OLDEST) in
      let s' := BoundedMailbox.run
                  (Resume :: Start :: repeat (Continue Returned) 3) s in
      BoundedMailbox.dropped_message_count s = 2
      /\ BoundedMailbox.queue s = [3; 4; 5]
      /\ BoundedMailbox.delivered s = []
      /\ BoundedMailbox.delivered s' = [3; 4; 5]
      /\ BoundedMailbox.dropped_message_count s' = 2
      /\ BoundedMailbox.workers s' = 0).
Proof.
  split.
  - intros s m h t Hp Hc Hf Hq s'. subst s'.
    rewrite (bounded_send_drop_oldest s m h t Hp Hc Hf Hq).
    repeat split.
  - repeat split.
Qed.

Lemma drop_oldest_overflow_witness :
  let s := BoundedMailbox.run [Suspend; Send 1; Send 2]
             (BoundedMailbox.init 2 DROP_OLDEST) in
  (BoundedMailbox.overflow_policy s = DROP_OLDEST
   /\ BoundedMailbox.closed s = false
   /\ BoundedMailbox.is_full s = true
   /\ BoundedMailbox.queue s = [1; 2])
  /\ BoundedMailbox.queue (BoundedMailbox.send 3 s) = [2; 3]
  /\ BoundedMailbox.resolved (BoundedMailbox.send 3 s) = [1].
Proof.
  split; [repeat split|].
  pose proof (proj1 drop_oldest_overflow
                (BoundedMailbox.run [Suspend; Send 1; Send 2]
                   (BoundedMailbox.init 2 DROP_OLDEST))
                3 1 [2] eq_refl eq_refl eq_refl eq_refl) as (Hq & Hr & _).
  split; [exact Hq | exact Hr].
Defined.

(** C8.  On an open [BoundedMailbox] with policy [REJECT] whose queue is at
    capacity, [send(m)] leaves the queue as it is, gives exactly one dead
    letter for [m] to the stage, settles [m]'s completion with [None] and
    raises the dropped-message count by one.  With capacity 2, after a
    suspend, five sends and a resume, the first two messages are delivered
    and the count is 3. *)
Theorem reject_overflow :
  (forall (s : BoundedMailbox.state) (m : Message),
     BoundedMailbox.overflow_policy s = REJECT ->
     BoundedMailbox.closed s = false ->
     BoundedMailbox.is_full s = true ->
     let s' := BoundedMailbox.send m s in
     BoundedMailbox.queue s' = BoundedMailbox.queue s
     /\ BoundedMailbox.appended s' = BoundedMailbox.appended s
     /\ BoundedMailbox.dead_letters s' = BoundedMailbox.dead_letters s ++ [m]
     /\ BoundedMailbox.resolved s' = BoundedMailbox.resolved s ++ [m]
     /\ BoundedMailbox.dropped_message_count s'
        = BoundedMailbox.dropped_message_count s + 1
     /\ BoundedMailbox.delivered s' = BoundedMailbox.delivered s
     /\ BoundedMailbox.workers s' = BoundedMailbox.workers s)
  /\ (let s := BoundedMailbox.run (Suspend :: map Send [0; 1; 2; 3; 4])
                 (BoundedMailbox.init 2 REJECT) in
      let s' := BoundedMailbox.run
                  (Resume :: Start :: repeat (Continue Returned) 2) s in
      BoundedMailbox.dropped_message_count s = 3
      /\ BoundedMailbox.dead_letters s = [2; 3; 4]
      /\ BoundedMailbox.resolved s = [2; 3; 4]
      /\ BoundedMailbox.delivered s = []
      /\ BoundedMailbox.delivered s' = [0; 1]
      /\ BoundedMailbox.dropped_message_count s' = 3
      /\ BoundedMailbox.workers s' = 0).
Proof.
  split.
  - intros s m Hp Hc Hf s'. subst s'.
    rewrite (bounded_send_reject s m Hp Hc Hf).
    repeat split.
  - repeat split.
Qed.

Lemma reject_overflow_witness :
  let s := BoundedMailbox.run [Suspend; Send 1; Send 2]
             (BoundedMailbox.init 2 REJECT) in
  (BoundedMailbox.overflow_policy s = REJECT
   /\ BoundedMailbox.closed s = false
   /\ BoundedMailbox.is_full s = true)
  /\ BoundedMailbox.queue (BoundedMailbox.send 3 s) = [1; 2]
  /\ BoundedMailbox.dead_letters (BoundedMailbox.send 3 s) = [3].
Proof.
  split; [repeat split|].
  pose proof (proj1 reject_overflow
                (BoundedMailbox.run [Suspend; Send 1; Send 2]
                   (BoundedMailbox.init 2 REJECT))
                3 eq_refl eq_refl eq_refl) as (Hq & _ & Hd & _).
  split; [exact Hq | exact Hd].
Defined.

(** C9.  For a [BoundedMailbox] with capacity at least 1, every step
    ([send] under any policy, [suspend], [resume], [close], [dispatch], the
    steps of the dispatch tasks) and [receive] keep the queue within the
    capacity.  For every capacity they keep it within [max capacity 1], and
    that bound holds in every reachable state; with capacity 0 and
    [DROP_OLDEST] a send on the empty queue appends, so the queue holds one
    message. *)
Theorem queue_within_capacity :
  (forall (l : label) (s : BoundedMailbox.state),
     (1 <= BoundedMailbox.capacity s)%Z ->
     (Z.of_nat (BoundedMailbox.size s) <= BoundedMailbox.capacity s)%Z ->
     (Z.of_nat (BoundedMailbox.size (BoundedMailbox.step l s))
      <= BoundedMailbox.capacity (BoundedMailbox.step l s))%Z)
  /\ (forall s : BoundedMailbox.state,
        BoundedMailbox.size (snd (BoundedMailbox.receive s))
        <= BoundedMailbox.size s
        /\ BoundedMailbox.capacity (snd (BoundedMailbox.receive s))
           = BoundedMailbox.capacity s)
  /\ (forall (l : label) (s : BoundedMailbox.state),
        (Z.of_nat (BoundedMailbox.size s)
         <= Z.max (BoundedMailbox.capacity s) 1)%Z ->
        (Z.of_nat (BoundedMailbox.size (BoundedMailbox.step l s))
         <= Z.max (BoundedMailbox.capacity (BoundedMailbox.step l s)) 1)%Z)
  /\ (forall (c : Z) (p : OverflowPolicy) (tr : list label),
        (Z.of_nat (BoundedMailbox.size
                     (BoundedMailbox.run tr (BoundedMailbox.init c p)))
         <= Z.max c 1)%Z)
  /\ (forall m : Message,
        BoundedMailbox.size
          (BoundedMailbox.send m (BoundedMailbox.init 0 DROP_OLDEST)) = 1).
Proof.
  split; [|split; [|split; [|split]]].
  - intros l s Hc Hs. rewrite (proj1 (bounded_config_step l s)).
    apply bounded_size_step_positive; assumption.
  - apply bounded_size_receive.
  - intros l s Hs. apply (bounded_size_step l) in Hs.
    exact Hs.
  - intros c p tr. pose proof (bounded_size_run tr c p) as H.
    unfold bounded_size_inv in H.
    rewrite (proj1 (bounded_config_run tr _)) in H. exact H.
  - intros m. reflexivity.
Qed.

Lemma queue_within_capacity_witness :
  let s := BoundedMailbox.run [Suspend; Send 1; Send 2]
             (BoundedMailbox.init 2 DROP_OLDEST) in
  ((1 <= BoundedMailbox.capacity s)%Z
   /\ (Z.of_nat (BoundedMailbox.size s) <= BoundedMailbox.capacity s)%Z)
  /\ (Z.of_nat (BoundedMailbox.size (BoundedMailbox.step (Send 3%nat) s))
      <= BoundedMailbox.capacity (BoundedMailbox.step (Send 3%nat) s))%Z.
Proof.
  assert (H1 : (1 <= BoundedMailbox.capacity
                  (BoundedMailbox.run [Suspend; Send 1%nat; Send 2%nat]
                     (BoundedMailbox.init 2 DROP_OLDEST)))%Z)
    by (vm_compute; discriminate).
  assert (H2 : (Z.of_nat (BoundedMailbox.size
                  (BoundedMailbox.run [Suspend; Send 1%nat; Send 2%nat]
                     (BoundedMailbox.init 2 DROP_OLDEST)))
                <= BoundedMailbox.capacity
                     (BoundedMailbox.run [Suspend; Send 1%nat; Send 2%nat]
                        (BoundedMailbox.init 2 DROP_OLDEST)))%Z)
    by (vm_compute; discriminate).
  split; [split; [exact H1 | exact H2]|].
  apply (proj1 queue_within_capacity (Send 3) _ H1 H2).
Defined.

Lemma mailbox_after_close (mb : mailbox) (tr : list label) :
  let mb' := Mailbox.run tr (Mailbox.close mb) in
  Mailbox.queue mb' = Mailbox.queue mb
  /\ Mailbox.delivered mb' = Mailbox.delivered mb
  /\ Mailbox.dead_letters mb' = Mailbox.dead_letters mb ++ sends tr
  /\ Mailbox.resolved mb' = Mailbox.resolved mb ++ sends tr.
Proof.
  destruct mb as [s|s]; unfold Mailbox.close; cbn [Mailbox.step]; cbn zeta.
  - rewrite mailbox_run_array.
    cbn [Mailbox.queue Mailbox.delivered Mailbox.dead_letters
         Mailbox.resolved].
    destruct (array_closed_run tr (ArrayMailbox.step Close s) eq_refl)
      as (_ & Hq & Hd & Hdl & Hr).
    rewrite Hq, Hd, Hdl, Hr. repeat split.
  - rewrite mailbox_run_bounded.
    cbn [Mailbox.queue Mailbox.delivered Mailbox.dead_letters
         Mailbox.resolved].
    destruct (bounded_closed_run tr (BoundedMailbox.step Close s) eq_refl)
      as (_ & Hq & Hd & Hdl & Hr).
    rewrite Hq, Hd, Hdl, Hr. repeat split.
Qed.

(** C10.  [close()] sets the closed flag and changes no other field of
    either mailbox: the queue and so [size()], the suspended flag and the
    dropped-message count stay as they were.  After it, whatever steps
    follow, the queue stays as it was at the close and nothing more is
    delivered; the only dead letters and [None] settlements that are added
    are those of the messages sent after the close.  So a message that was
    queued at the close, unless it is sent again, stays queued and is never
    delivered, never given to dead letters and never settled. *)
Theorem close_only_sets_flag :
  (forall s : ArrayMailbox.state,
     ArrayMailbox.close s
     = ArrayMailbox.mk (ArrayMailbox.queue s) true (ArrayMailbox.suspended s)
         (ArrayMailbox.dispatching s) (ArrayMailbox.tasks s)
         (ArrayMailbox.awaiting s) (ArrayMailbox.delivered s)
         (ArrayMailbox.dead_letters s) (ArrayMailbox.resolved s)
         (ArrayMailbox.appended s))
  /\ (forall s : BoundedMailbox.state,
        BoundedMailbox.close s
        = BoundedMailbox.mk (BoundedMailbox.queue s)
            (BoundedMailbox.capacity s) (BoundedMailbox.overflow_policy s)
            true (BoundedMailbox.suspended s)
            (BoundedMailbox.dropped_message_count s)
            (BoundedMailbox.dispatching s) (BoundedMailbox.tasks s)
            (BoundedMailbox.awaiting s) (BoundedMailbox.delivered s)
            (BoundedMailbox.dead_letters s) (BoundedMailbox.resolved s)
            (BoundedMailbox.appended s))
  /\ (forall mb : mailbox,
        Mailbox.is_closed (Mailbox.close mb) = true
        /\ Mailbox.size (Mailbox.close mb) = Mailbox.size mb
        /\ Mailbox.is_suspended (Mailbox.close mb) = Mailbox.is_suspended mb
        /\ Mailbox.dropped_message_count (Mailbox.close mb)
           = Mailbox.dropped_message_count mb)
  /\ (forall (mb : mailbox) (tr : list label),
        let mb' := Mailbox.run tr (Mailbox.close mb) in
        Mailbox.queue mb' = Mailbox.queue mb
        /\ Mailbox.size mb' = Mailbox.size mb
        /\ Mailbox.delivered mb' = Mailbox.delivered mb
        /\ Mailbox.dead_letters mb' = Mailbox.dead_letters mb ++ sends tr
        /\ Mailbox.resolved mb' = Mailbox.resolved mb ++ sends tr)
  /\ (forall (mb : mailbox) (tr : list label) (m : Message),
        In m (Mailbox.queue mb) -> ~ In m (sends tr) ->
        ~ In m (Mailbox.delivered mb) -> ~ In m (Mailbox.dead_letters mb) ->
        ~ In m (Mailbox.resolved mb) ->
        let mb' := Mailbox.run tr (Mailbox.close mb) in
        In m (Mailbox.queue mb')
        /\ ~ In m (Mailbox.delivered mb')
        /\ ~ In m (Mailbox.dead_letters mb')
        /\ ~ In m (Mailbox.resolved mb')).
Proof.
  split; [|split; [|split; [|split]]].
  - intros s. reflexivity.
  - intros s. reflexivity.
  - intros [s|s]; repeat split.
  - intros mb tr mb'.
    destruct (mailbox_after_close mb tr) as (Hq & Hd & Hdl & Hr).
    fold mb' in Hq, Hd, Hdl, Hr. repeat split; try assumption.
    destruct mb' as [s'|s'], mb as [s|s];
      cbn [Mailbox.size Mailbox.queue] in *;
      unfold ArrayMailbox.size, BoundedMailbox.size; rewrite Hq; reflexivity.
  - intros mb tr m Hin Hs HD HDL HR mb'.
    destruct (mailbox_after_close mb tr) as (Hq & Hd & Hdl & Hr).
    fold mb' in Hq, Hd, Hdl, Hr. rewrite Hq, Hd, Hdl, Hr.
    repeat split; try assumption.
    + intros H. apply in_app_or in H as [H|H]; auto.
    + intros H. apply in_app_or in H as [H|H]; auto.
Qed.

Lemma close_only_sets_flag_witness :
  let mb := Mailbox.run [Suspend; Send 1; Send 2] (Mailbox.new Unbounded) in
  let tr := [Resume; Start; Send 3; Dispatch; Continue Returned] in
  (In 1 (Mailbox.queue mb) /\ ~ In 1 (sends tr))
  /\ In 1 (Mailbox.queue (Mailbox.run tr (Mailbox.close mb)))
  /\ ~ In 1 (Mailbox.delivered (Mailbox.run tr (Mailbox.close mb))).
Proof.
  assert (Hs : ~ In 1 (sends [Resume; Start; Send 3; Dispatch;
                              Continue Returned]))
    by (simpl; intros [H|[]]; discriminate H).
  split; [split; [simpl; auto | exact Hs]|].
  pose proof (proj2 (proj2 (proj2 (proj2 close_only_sets_flag)))
                (Mailbox.run [Suspend; Send 1; Send 2] (Mailbox.new Unbounded))
                [Resume; Start; Send 3; Dispatch; Continue Returned] 1
                ltac:(simpl; auto) Hs ltac:(simpl; auto) ltac:(simpl; auto)
                ltac:(simpl; auto)) as (Hq & Hd & _).
  split; [exact Hq | exact Hd].
Defined.

(** * Further properties of the two mailboxes *)

(** X1.  On an open [BoundedMailbox] with policy [DROP_NEWEST] whose queue
    is at capacity, [send(m)] leaves the queue as it is, settles [m]'s
    completion with [None] and raises the dropped-message count by one; it
    writes no dead letter, delivers nothing and starts no worker. *)
Theorem drop_newest_overflow (s : BoundedMailbox.state) (m : Message) :
  BoundedMailbox.overflow_policy s = DROP_NEWEST ->
  BoundedMailbox.closed s = false ->
  BoundedMailbox.is_full s = true ->
  let s' := BoundedMailbox.send m s in
  BoundedMailbox.queue s' = BoundedMailbox.queue s
  /\ BoundedMailbox.appended s' = BoundedMailbox.appended s
  /\ BoundedMailbox.resolved s' = BoundedMailbox.resolved s ++ [m]
  /\ BoundedMailbox.dropped_message_count s'
     = BoundedMailbox.dropped_message_count s + 1
  /\ BoundedMailbox.dead_letters s' = BoundedMailbox.dead_letters s
  /\ BoundedMailbox.delivered s' = BoundedMailbox.delivered s
  /\ BoundedMailbox.workers s' = BoundedMailbox.workers s.
Proof.
  intros Hp Hc Hf s'. subst s'.
  rewrite (bounded_send_drop_newest s m Hp Hc Hf). repeat split.
Qed.

Lemma drop_newest_overflow_witness :
  let s := BoundedMailbox.run [Suspend; Send 1; Send 2]
             (BoundedMailbox.init 2 DROP_NEWEST) in
  (BoundedMailbox.overflow_policy s = DROP_NEWEST
   /\ BoundedMailbox.closed s = false
   /\ BoundedMailbox.is_full s = true)
  /\ BoundedMailbox.queue (BoundedMailbox.send 3 s) = [1; 2]
  /\ BoundedMailbox.resolved (BoundedMailbox.send 3 s) = [3].
Proof.
  split; [repeat split|].
  pose proof (drop_newest_overflow
                (BoundedMailbox.run [Suspend; Send 1; Send 2]
                   (BoundedMailbox.init 2 DROP_NEWEST))
                3 eq_refl eq_refl eq_refl) as (Hq & _ & Hr & _).
  split; [exact Hq | exact Hr].
Defined.

(** X2.  [suspend()], [resume()], [close()] and the legacy [dispatch()] are
    idempotent on both mailboxes: calling one twice in a row leaves the
    state the first call made.  A second [resume()] or [dispatch()] starts
    no second worker. *)
Theorem mailbox_methods_idempotent (mb : mailbox) :
  Mailbox.suspend (Mailbox.suspend mb) = Mailbox.suspend mb
  /\ Mailbox.resume (Mailbox.resume mb) = Mailbox.resume mb
  /\ Mailbox.close (Mailbox.close mb) = Mailbox.close mb
  /\ Mailbox.step Dispatch (Mailbox.step Dispatch mb)
     = Mailbox.step Dispatch mb.
Proof.
  destruct mb as [s|s];
    unfold Mailbox.suspend, Mailbox.resume, Mailbox.close;
    cbn [Mailbox.step].
  - destruct s as [q c su d t a D DL R A].
    destruct c, su, d, q as [|h q]; repeat split.
  - destruct s as [q cap pol c su n d t a D DL R A].
    destruct c, su, d, q as [|h q]; repeat split.
Qed.

(** X3.  The capacity and the overflow policy of a [BoundedMailbox] are
    those given to the constructor, whatever steps the mailbox takes. *)
Theorem capacity_and_policy_fixed (c : Z) (p : OverflowPolicy)
    (tr : list label) :
  let s := BoundedMailbox.run tr (BoundedMailbox.init c p) in
  BoundedMailbox.capacity s = c /\ BoundedMailbox.overflow_policy s = p.
Proof. apply (bounded_config_run tr (BoundedMailbox.init c p)). Qed.

(** *** the legacy [dispatch()] finds nothing to do *)

Lemma array_dispatch_noop (s : ArrayMailbox.state) :
  array_work_inv s -> ArrayMailbox.dispatch s = s.
Proof.
  unfold array_work_inv. destruct s as [q c su d t a D DL R A].
  destruct c, su, d, q as [|h q]; array_unfold; simpl; intros H; auto.
  discriminate H; [discriminate | reflexivity | reflexivity].
Qed.

Lemma bounded_dispatch_noop (s : BoundedMailbox.state) :
  (1 <= BoundedMailbox.capacity s)%Z ->
  bounded_work_inv s -> BoundedMailbox.dispatch s = s.
Proof.
  unfold bounded_work_inv. destruct s as [q cap pol c su n d t a D DL R A].
  destruct c, su, d, q as [|h q]; bounded_unfold; simpl; intros Hc H; auto.
  discriminate H; [exact Hc | discriminate | reflexivity | reflexivity].
Qed.

(** X4.  In every reachable state of an [ArrayMailbox], and of a
    [BoundedMailbox] whose capacity is at least 1, the legacy [dispatch()]
    changes nothing: whenever there is work on an open mailbox that is not
    suspended, [send], [resume] or the ending worker has already started
    the worker. *)
Theorem legacy_dispatch_changes_nothing (k : kind) (tr : list label) :
  Mailbox.capacity_positive k ->
  let mb := Mailbox.run tr (Mailbox.new k) in
  Mailbox.step Dispatch mb = mb.
Proof.
  intros Hk. mailbox_cases k; cbn zeta; cbn [Mailbox.step]; f_equal.
  - apply array_dispatch_noop, array_work_run.
  - apply bounded_dispatch_noop; [|apply bounded_work_run].
    rewrite (proj1 (bounded_config_run tr _)). exact Hk.
Qed.

Lemma legacy_dispatch_changes_nothing_witness :
  let k := BoundedBy 2 REJECT in
  let mb := Mailbox.run [Send 1; Start; Send 2; Send 3] (Mailbox.new k) in
  Mailbox.capacity_positive k /\ Mailbox.step Dispatch mb = mb.
Proof.
  assert (Hk : Mailbox.capacity_positive (BoundedBy 2 REJECT))
    by (simpl; lia).
  split; [exact Hk|].
  exact (legacy_dispatch_changes_nothing (BoundedBy 2 REJECT)
           [Send 1; Start; Send 2; Send 3] Hk).
Defined.

(** *** a suspended mailbox delivers nothing *)

Lemma array_suspended_step (l : label) (s : ArrayMailbox.state) :
  ArrayMailbox.suspended s = true -> no_resume [l] = true ->
  ArrayMailbox.suspended (ArrayMailbox.step l s) = true
  /\ ArrayMailbox.delivered (ArrayMailbox.step l s) = ArrayMailbox.delivered s.
Proof.
  array_cases s l; intros; try discriminate; auto.
Qed.

Lemma bounded_suspended_step (l : label) (s : BoundedMailbox.state) :
  BoundedMailbox.suspended s = true -> no_resume [l] = true ->
  BoundedMailbox.suspended (BoundedMailbox.step l s) = true
  /\ BoundedMailbox.delivered (BoundedMailbox.step l s)
     = BoundedMailbox.delivered s.
Proof.
  bounded_cases s l; intros; try discriminate; auto.
Qed.

Lemma no_resume_cons (l : label) (tr : list label) :
  no_resume (l :: tr) = true -> no_resume [l] = true /\ no_resume tr = true.
Proof.
  unfold no_resume. simpl. intros H. apply andb_prop in H as [H1 H2].
  rewrite H1. auto.
Qed.

(** X5.  While a mailbox of either kind is suspended and [resume()] is not
    called, no handler is invoked, whatever else happens: sends, closes,
    legacy dispatches and the turns of a worker that was already running
    leave the list of deliveries as it was, and the mailbox stays
    suspended. *)
Theorem suspended_delivers_nothing (mb : mailbox) (tr : list label) :
  Mailbox.is_suspended mb = true -> no_resume tr = true ->
  Mailbox.is_suspended (Mailbox.run tr mb) = true
  /\ Mailbox.delivered (Mailbox.run tr mb) = Mailbox.delivered mb.
Proof.
  revert mb. induction tr as [|l tr IH]; intros mb Hs Hn; [auto|].
  apply no_resume_cons in Hn as [Hl Hn].
  assert (H : Mailbox.is_suspended (Mailbox.step l mb) = true
              /\ Mailbox.delivered (Mailbox.step l mb) = Mailbox.delivered mb).
  { destruct mb as [s|s]; cbn [Mailbox.step Mailbox.is_suspended
                                Mailbox.delivered] in *.
    - apply array_suspended_step; assumption.
    - apply bounded_suspended_step; assumption. }
  destruct H as [Hs' Hd'].
  destruct (IH (Mailbox.step l mb) Hs' Hn) as [IHs IHd].
  change (Mailbox.run (l :: tr) mb) with (Mailbox.run tr (Mailbox.step l mb)).
  rewrite IHd, Hd'. auto.
Qed.

Lemma suspended_delivers_nothing_witness :
  let mb := Mailbox.run [Send 1; Start; Send 2; Suspend]
              (Mailbox.new Unbounded) in
  let tr := [Send 3; Continue Returned; Dispatch; Start; Send 4] in
  (Mailbox.is_suspended mb = true /\ no_resume tr = true)
  /\ Mailbox.delivered (Mailbox.run tr mb) = [1].
Proof.
  split; [split; reflexivity|].
  exact (proj2 (suspended_delivers_nothing
                  (Mailbox.run [Send 1; Start; Send 2; Suspend]
                     (Mailbox.new Unbounded))
                  [Send 3; Continue Returned; Dispatch; Start; Send 4]
                  eq_refl eq_refl)).
Defined.

(** *** an open [ArrayMailbox] loses nothing *)

Lemma array_open_step (l : label) (sent : list Message)
    (s : ArrayMailbox.state) :
  (ArrayMailbox.closed s = false ->
   ArrayMailbox.delivered s ++ ArrayMailbox.queue s = sent
   /\ ArrayMailbox.resolved s = [] /\ ArrayMailbox.dead_letters s = []) ->
  ArrayMailbox.closed (ArrayMailbox.step l s) = false ->
  ArrayMailbox.delivered (ArrayMailbox.step l s)
    ++ ArrayMailbox.queue (ArrayMailbox.step l s) = sent ++ sends [l]
  /\ ArrayMailbox.resolved (ArrayMailbox.step l s) = []
  /\ ArrayMailbox.dead_letters (ArrayMailbox.step l s) = [].
Proof.
  array_cases s l; intros H Hc; try discriminate Hc;
    destruct (H eq_refl) as (HQ & HR & HDL); subst;
    rewrite ?app_nil_r, <- ?app_assoc; auto.
Qed.

(** X6.  As long as an [ArrayMailbox] has not been closed, no message is
    lost or reordered: the messages delivered, followed by the messages
    queued, are exactly the messages sent, in the order of the sends, and
    the mailbox has settled no completion and written no dead letter. *)
Theorem open_array_mailbox_loses_nothing (tr : list label) :
  let s := ArrayMailbox.run tr ArrayMailbox.init in
  ArrayMailbox.closed s = false ->
  ArrayMailbox.delivered s ++ ArrayMailbox.queue s = sends tr
  /\ ArrayMailbox.resolved s = []
  /\ ArrayMailbox.dead_letters s = [].
Proof.
  cbn zeta. induction tr as [|l tr IH] using rev_ind.
  - intros _. repeat split.
  - rewrite sends_app, array_run_snoc. apply array_open_step, IH.
Qed.

Lemma open_array_mailbox_loses_nothing_witness :
  let tr := [Send 1; Send 2; Start; Suspend; Send 3; Continue Raised] in
  let s := ArrayMailbox.run tr ArrayMailbox.init in
  ArrayMailbox.closed s = false
  /\ ArrayMailbox.delivered s ++ ArrayMailbox.queue s = [1; 2; 3].
Proof.
  split; [reflexivity|].
  exact (proj1 (open_array_mailbox_loses_nothing
                  [Send 1; Send 2; Start; Suspend; Send 3; Continue Raised]
                  eq_refl)).
Defined.

(** *** what the dropped-message count counts *)

Lemma bounded_open_step (l : label) (s : BoundedMailbox.state) :
  (BoundedMailbox.closed s = false ->
   BoundedMailbox.dropped_message_count s
   = length (BoundedMailbox.resolved s)) ->
  BoundedMailbox.closed (BoundedMailbox.step l s) = false ->
  BoundedMailbox.dropped_message_count (BoundedMailbox.step l s)
  = length (BoundedMailbox.resolved (BoundedMailbox.step l s)).
Proof.
  bounded_cases s l; intros H Hc; try discriminate Hc;
    pose proof (H eq_refl) as HR; cbn [length] in *;
    rewrite ?length_app; cbn [length]; lia.
Qed.

(** X7.  As long as a [BoundedMailbox] has not been closed,
    [dropped_message_count()] is the number of completions the mailbox has
    settled with [None], and every send is delivered, queued or counted as
    dropped: sends = deliveries + [size()] + [dropped_message_count()]. *)
Theorem dropped_count_accounts_for_sends (c : Z) (p : OverflowPolicy)
    (tr : list label) :
  let s := BoundedMailbox.run tr (BoundedMailbox.init c p) in
  BoundedMailbox.closed s = false ->
  BoundedMailbox.dropped_message_count s = length (BoundedMailbox.resolved s)
  /\ length (sends tr)
     = length (BoundedMailbox.delivered s) + BoundedMailbox.size s
       + BoundedMailbox.dropped_message_count s.
Proof.
  cbn zeta. intros Hc.
  assert (H : BoundedMailbox.dropped_message_count
                (BoundedMailbox.run tr (BoundedMailbox.init c p))
              = length (BoundedMailbox.resolved
                          (BoundedMailbox.run tr (BoundedMailbox.init c p)))).
  { revert Hc. induction tr as [|l tr IH] using rev_ind.
    - reflexivity.
    - rewrite bounded_run_snoc. apply bounded_open_step, IH. }
  split; [exact H|].
  destruct (bounded_account_run tr c p) as (HP & _ & _).
  apply Permutation_length in HP.
  rewrite HP, !length_app, H. unfold BoundedMailbox.size. lia.
Qed.

Lemma dropped_count_accounts_for_sends_witness :
  let tr := [Send 1; Send 2; Send 3; Start; Send 4; Send 5] in
  let s := BoundedMailbox.run tr (BoundedMailbox.init 2 DROP_OLDEST) in
  BoundedMailbox.closed s = false
  /\ length (sends tr)
     = length (BoundedMailbox.delivered s) + BoundedMailbox.size s
       + BoundedMailbox.dropped_message_count s.
Proof.
  split; [reflexivity|].
  exact (proj2 (dropped_count_accounts_for_sends 2 DROP_OLDEST
                  [Send 1; Send 2; Send 3; Start; Send 4; Send 5] eq_refl)).
Defined.

(** *** the policies that do not evict *)

Lemma bounded_keep_step (l : label) (s : BoundedMailbox.state) :
  BoundedMailbox.overflow_policy s <> DROP_OLDEST ->
  BoundedMailbox.delivered s ++ BoundedMailbox.queue s
  = BoundedMailbox.appended s ->
  BoundedMailbox.delivered (BoundedMailbox.step l s)
    ++ BoundedMailbox.queue (BoundedMailbox.step l s)
  = BoundedMailbox.appended (BoundedMailbox.step l s).
Proof.
  bounded_cases s l; intros Hp H; try (exfalso; apply Hp; reflexivity);
    rewrite ?app_nil_r in *; rewrite <- ?H, <- ?app_assoc; auto.
Qed.

(** X8.  A [BoundedMailbox] with policy [DROP_NEWEST] or [REJECT] never
    takes a message out of its queue except to deliver it: in every
    reachable state the messages delivered, followed by the messages
    queued, are exactly the messages that were appended, in order. *)
Theorem keeping_policies_deliver_all_appended (c : Z) (p : OverflowPolicy)
    (tr : list label) :
  p <> DROP_OLDEST ->
  let s := BoundedMailbox.run tr (BoundedMailbox.init c p) in
  BoundedMailbox.delivered s ++ BoundedMailbox.queue s
  = BoundedMailbox.appended s.
Proof.
  intros Hp. cbn zeta. induction tr as [|l tr IH] using rev_ind.
  - reflexivity.
  - rewrite bounded_run_snoc. apply bounded_keep_step; [|exact IH].
    rewrite (proj2 (bounded_config_run tr _)). exact Hp.
Qed.

Lemma keeping_policies_deliver_all_appended_witness :
  let tr := [Send 1; Send 2; Send 3; Start; Send 4; Continue Returned] in
  let s := BoundedMailbox.run tr (BoundedMailbox.init 2 REJECT) in
  REJECT <> DROP_OLDEST
  /\ BoundedMailbox.delivered s ++ BoundedMailbox.queue s
     = BoundedMailbox.appended s.
Proof.
  assert (Hp : REJECT <> DROP_OLDEST) by discriminate.
  split; [exact Hp|].
  exact (keeping_policies_deliver_all_appended 2 REJECT
           [Send 1; Send 2; Send 3; Start; Send 4; Continue Returned] Hp).
Defined.

(** *** a capacity of zero or less *)

Lemma bounded_never_accepts_step (l : label) (s : BoundedMailbox.state) :
  (BoundedMailbox.capacity s <= 0)%Z ->
  BoundedMailbox.overflow_policy s <> DROP_OLDEST ->
  BoundedMailbox.queue s = [] /\ BoundedMailbox.delivered s = []
  /\ BoundedMailbox.workers s = 0 ->
  BoundedMailbox.queue (BoundedMailbox.step l s) = []
  /\ BoundedMailbox.delivered (BoundedMailbox.step l s) = []
  /\ BoundedMailbox.workers (BoundedMailbox.step l s) = 0.
Proof.
  bounded_cases s l; intros Hcap Hp (Hq & Hd & Hw);
    try discriminate; try (exfalso; apply Hp; reflexivity); auto.
  all: try (rewrite Z.geb_leb in Hfull; apply Z.leb_gt in Hfull;
            simpl in Hfull; lia).
Qed.

(** X9.  A [BoundedMailbox] built with a capacity of zero or less and the
    policy [DROP_NEWEST] or [REJECT] never accepts a message: in every
    reachable state its queue is empty, nothing has been delivered and no
    worker was ever started. *)
Theorem zero_capacity_accepts_nothing (c : Z) (p : OverflowPolicy)
    (tr : list label) :
  (c <= 0)%Z -> p <> DROP_OLDEST ->
  let s := BoundedMailbox.run tr (BoundedMailbox.init c p) in
  BoundedMailbox.queue s = [] /\ BoundedMailbox.delivered s = []
  /\ BoundedMailbox.workers s = 0.
Proof.
  intros Hc Hp. cbn zeta. induction tr as [|l tr IH] using rev_ind.
  - repeat split.
  - rewrite bounded_run_snoc. apply bounded_never_accepts_step; [| |exact IH].
    + rewrite (proj1 (bounded_config_run tr _)). exact Hc.
    + rewrite (proj2 (bounded_config_run tr _)). exact Hp.
Qed.

Lemma zero_capacity_accepts_nothing_witness :
  let tr := [Send 1; Resume; Dispatch; Send 2; Start] in
  let s := BoundedMailbox.run tr (BoundedMailbox.init 0 REJECT) in
  ((0 <= 0)%Z /\ REJECT <> DROP_OLDEST)
  /\ BoundedMailbox.queue s = [] /\ BoundedMailbox.delivered s = [].
Proof.
  assert (Hc : (0 <= 0)%Z) by lia.
  assert (Hp : REJECT <> DROP_OLDEST) by discriminate.
  split; [split; [exact Hc | exact Hp]|].
  pose proof (zero_capacity_accepts_nothing 0 REJECT
                [Send 1%nat; Resume; Dispatch; Send 2%nat; Start] Hc Hp)
    as (Hq & Hd & _).
  split; [exact Hq | exact Hd].
Defined.

(** X10.  With a capacity of zero or less and the policy [DROP_OLDEST], a
    send to an open mailbox whose queue is empty appends the message
    through the overflow path, which, unlike the normal path, starts no
    worker and counts no drop.  If the mailbox is idle and not suspended,
    the message stays queued with no worker until the legacy [dispatch()]
    (or a [resume()]) starts one. *)
Theorem zero_capacity_drop_oldest_send (s : BoundedMailbox.state)
    (m : Message) :
  (BoundedMailbox.capacity s <= 0)%Z ->
  BoundedMailbox.overflow_policy s = DROP_OLDEST ->
  BoundedMailbox.closed s = false ->
  BoundedMailbox.queue s = [] ->
  let s' := BoundedMailbox.send m s in
  BoundedMailbox.queue s' = [m]
  /\ BoundedMailbox.workers s' = BoundedMailbox.workers s
  /\ BoundedMailbox.dispatching s' = BoundedMailbox.dispatching s
  /\ BoundedMailbox.dropped_message_count s'
     = BoundedMailbox.dropped_message_count s
  /\ (BoundedMailbox.suspended s = false ->
      BoundedMailbox.dispatching s = false ->
      BoundedMailbox.workers (BoundedMailbox.dispatch s')
      = S (BoundedMailbox.workers s)
      /\ BoundedMailbox.workers (BoundedMailbox.resume s')
         = S (BoundedMailbox.workers s)).
Proof.
  destruct s as [q cap pol c su n d t a D DL R A].
  cbn [BoundedMailbox.capacity BoundedMailbox.overflow_policy
       BoundedMailbox.closed BoundedMailbox.queue BoundedMailbox.suspended
       BoundedMailbox.dispatching].
  intros Hcap -> -> ->.
  assert (Hfull : (Z.of_nat (length (@nil Message)) >=? cap)%Z = true)
    by (apply Z.geb_le; simpl; lia).
  bounded_unfold. rewrite Hfull. cbn.
  repeat split; subst; cbn; lia.
Qed.

Lemma zero_capacity_drop_oldest_send_witness :
  let s := BoundedMailbox.init 0 DROP_OLDEST in
  ((BoundedMailbox.capacity s <= 0)%Z
   /\ BoundedMailbox.overflow_policy s = DROP_OLDEST
   /\ BoundedMailbox.closed s = false
   /\ BoundedMailbox.queue s = [])
  /\ BoundedMailbox.queue (BoundedMailbox.send 1 s) = [1]
  /\ BoundedMailbox.workers (BoundedMailbox.send 1 s) = 0.
Proof.
  assert (Hc : (BoundedMailbox.capacity (BoundedMailbox.init 0 DROP_OLDEST)
                <= 0)%Z) by (simpl; lia).
  split; [repeat split; exact Hc|].
  pose proof (zero_capacity_drop_oldest_send
                (BoundedMailbox.init 0 DROP_OLDEST) 1 Hc
                eq_refl eq_refl eq_refl) as (Hq & Hw & _).
  split; [exact Hq | exact Hw].
Defined.

(** X11.  In every reachable state of a [BoundedMailbox] whose capacity is
    at least 1, [is_full()] holds exactly when [size()] equals the
    capacity: the queue never holds more. *)
Theorem is_full_iff_size_is_capacity (c : Z) (p : OverflowPolicy)
    (tr : list label) :
  (1 <= c)%Z ->
  let s := BoundedMailbox.run tr (BoundedMailbox.init c p) in
  BoundedMailbox.is_full s = true <-> Z.of_nat (BoundedMailbox.size s) = c.
Proof.
  intros Hc. cbn zeta.
  pose proof (bounded_size_run tr c p) as H. unfold bounded_size_inv in H.
  unfold BoundedMailbox.is_full. fold (BoundedMailbox.size
    (BoundedMailbox.run tr (BoundedMailbox.init c p))).
  rewrite (proj1 (bounded_config_run tr _)) in *.
  cbn [BoundedMailbox.init BoundedMailbox.capacity] in *.
  rewrite Z.geb_le. lia.
Qed.

Lemma is_full_iff_size_is_capacity_witness :
  let s := BoundedMailbox.run [Suspend; Send 1; Send 2; Send 3]
             (BoundedMailbox.init 2 DROP_NEWEST) in
  (1 <= 2)%Z /\ BoundedMailbox.is_full s = true.
Proof.
  assert (Hc : (1 <= 2)%Z) by lia.
  split; [exact Hc|].
  apply (is_full_iff_size_is_capacity 2 DROP_NEWEST
           [Suspend; Send 1%nat; Send 2%nat; Send 3%nat] Hc).
  reflexivity.
Defined.

(** *** dead letters follow the sends *)

Lemma array_dead_letters_step (l : label) (sent : list Message)
    (s : ArrayMailbox.state) :
  ArrayMailbox.dead_letters s `sublist_of` sent ->
  ArrayMailbox.dead_letters (ArrayMailbox.step l s)
    `sublist_of` sent ++ sends [l].
Proof.
  array_cases s l; intros H; rewrite ?app_nil_r; auto.
  all: first [ apply sublist_app; [exact H | reflexivity]
             | apply sublist_inserts_r; exact H ].
Qed.

Lemma bounded_dead_letters_step (l : label) (sent : list Message)
    (s : BoundedMailbox.state) :
  BoundedMailbox.dead_letters s `sublist_of` sent ->
  BoundedMailbox.dead_letters (BoundedMailbox.step l s)
    `sublist_of` sent ++ sends [l].
Proof.
  bounded_cases s l; intros H; rewrite ?app_nil_r; auto.
  all: first [ apply sublist_app; [exact H | reflexivity]
             | apply sublist_inserts_r; exact H ].
Qed.

(** X12.  The dead letters of a mailbox of either kind are written in the
    order of the sends they come from: in every reachable state the list of
    dead letters is a subsequence of the list of messages sent.  No step
    other than a send writes a dead letter, and none is written twice for
    one send. *)
Theorem dead_letters_follow_sends (k : kind) (tr : list label) :
  Mailbox.dead_letters (Mailbox.run tr (Mailbox.new k))
    `sublist_of` sends tr.
Proof.
  mailbox_cases k; cbn [Mailbox.dead_letters].
  - induction tr as [|l tr IH] using rev_ind; [reflexivity|].
    rewrite sends_app, array_run_snoc. apply array_dead_letters_step, IH.
  - induction tr as [|l tr IH] using rev_ind; [reflexivity|].
    rewrite sends_app, bounded_run_snoc. apply bounded_dead_letters_step, IH.
Qed.

(** *** sending, then receiving by hand *)

Lemma array_sends_queue (msgs : list Message) : forall s : ArrayMailbox.state,
  ArrayMailbox.closed s = false ->
  ArrayMailbox.queue (ArrayMailbox.run (map Send msgs) s)
  = ArrayMailbox.queue s ++ msgs
  /\ ArrayMailbox.closed (ArrayMailbox.run (map Send msgs) s) = false.
Proof.
  induction msgs as [|m msgs IH]; intros s Hc.
  - simpl. rewrite app_nil_r. auto.
  - change (ArrayMailbox.run (map Send (m :: msgs)) s)
      with (ArrayMailbox.run (map Send msgs) (ArrayMailbox.send m s)).
    assert (H : ArrayMailbox.queue (ArrayMailbox.send m s)
                = ArrayMailbox.queue s ++ [m]
                /\ ArrayMailbox.closed (ArrayMailbox.send m s) = false).
    { destruct s as [q c su d t a D DL R A]; cbn [ArrayMailbox.closed] in Hc;
        subst; destruct su, d; split; reflexivity. }
    destruct H as [Hq Hc'].
    destruct (IH _ Hc') as [IHq IHc].
    rewrite IHq, Hq, <- app_assoc. auto.
Qed.

Lemma array_receive_n_queue (q : list Message) :
  forall (c su d : bool) (t a : nat) (D DL R A : list Message),
  array_receive_n (S (length q)) (ArrayMailbox.mk q c su d t a D DL R A)
  = (q, ArrayMailbox.mk [] c su d t a D DL R A).
Proof.
  induction q as [|h q IH]; intros c su d t a D DL R A.
  - reflexivity.
  - change (array_receive_n (S (length (h :: q)))
              (ArrayMailbox.mk (h :: q) c su d t a D DL R A))
      with (let (ms, s2) := array_receive_n (S (length q))
                              (ArrayMailbox.mk q c su d t a D DL R A)
            in (h :: ms, s2)).
    rewrite IH. reflexivity.
Qed.

(** X13.  What [send] puts into an open [ArrayMailbox], [receive()] takes
    out in the same order: after the sends of [msgs], calling [receive()]
    until it returns [EmptyMessage] yields the messages that were queued
    before, then [msgs], and leaves the queue empty.  A further
    [receive()] returns [EmptyMessage] and changes nothing. *)
Theorem send_then_receive_round_trip (s : ArrayMailbox.state)
    (msgs : list Message) :
  ArrayMailbox.closed s = false ->
  let s1 := ArrayMailbox.run (map Send msgs) s in
  let (got, s2) := array_receive_n (S (ArrayMailbox.size s1)) s1 in
  got = ArrayMailbox.queue s ++ msgs
  /\ ArrayMailbox.queue s2 = []
  /\ ArrayMailbox.is_receivable s2 = false
  /\ ArrayMailbox.receive s2 = (None, s2).
Proof.
  intros Hc. cbn zeta.
  destruct (array_sends_queue msgs s Hc) as [Hq _].
  destruct (ArrayMailbox.run (map Send msgs) s)
    as [q c su d t a D DL R A] eqn:E.
  cbn [ArrayMailbox.queue] in Hq. unfold ArrayMailbox.size.
  cbn [ArrayMailbox.queue]. rewrite array_receive_n_queue.
  repeat split. exact Hq.
Qed.

Lemma send_then_receive_round_trip_witness :
  let s := ArrayMailbox.run [Suspend; Send 1] ArrayMailbox.init in
  ArrayMailbox.closed s = false
  /\ fst (array_receive_n 4 (ArrayMailbox.run (map Send [2; 3]) s))
     = [1; 2; 3].
Proof.
  split; [reflexivity|].
  pose proof (send_then_receive_round_trip
                (ArrayMailbox.run [Suspend; Send 1] ArrayMailbox.init)
                [2; 3] eq_refl) as H.
  cbn zeta in H.
  change (ArrayMailbox.size _) with 3 in H.
  destruct (array_receive_n 4 _) as [got s2]. exact (proj1 H).
Defined.

(** *** what a suspended bounded mailbox keeps *)

Lemma bounded_buffer_drop_oldest (n : nat) (msgs : list Message) :
  1 <= n ->
  exists F Q : list Message,
    msgs = F ++ Q /\ length Q = Nat.min (length msgs) n
    /\ BoundedMailbox.run (map Send msgs)
         (BoundedMailbox.suspend (BoundedMailbox.init (Z.of_nat n) DROP_OLDEST))
       = BoundedMailbox.mk Q (Z.of_nat n) DROP_OLDEST false true (length F)
           false 0 0 [] [] F msgs.
Proof.
  intros Hn. induction msgs as [|m msgs IH] using rev_ind.
  - exists [], []. repeat split.
  - destruct IH as (F & Q & Hm & Hl & Hs).
    rewrite map_app, bounded_run_app, Hs. cbn [map].
    change (BoundedMailbox.run [Send m] ?s) with (BoundedMailbox.send m s).
    rewrite length_app. cbn [length].
    destruct (Z.of_nat (length Q) >=? Z.of_nat n)%Z eqn:Hfull.
    + apply Z.geb_le in Hfull.
      destruct Q as [|h t]; [simpl in Hfull; lia|].
      exists (F ++ [h]), (t ++ [m]). split; [|split].
      * rewrite Hm, <- !app_assoc. reflexivity.
      * rewrite length_app. cbn [length] in *. lia.
      * bounded_unfold.
        assert (E : (Z.of_nat (length (h :: t)) >=? Z.of_nat n)%Z = true)
          by (apply Z.geb_le; exact Hfull).
        rewrite E, length_app. cbn [length].
        reflexivity.
    + exists F, (Q ++ [m]). split; [|split].
      * rewrite Hm, <- app_assoc. reflexivity.
      * rewrite Z.geb_leb in Hfull. apply Z.leb_gt in Hfull.
        rewrite length_app. cbn [length]. lia.
      * bounded_unfold. rewrite Hfull.
        assert (EF : F = []).
        { rewrite Z.geb_leb in Hfull. apply Z.leb_gt in Hfull.
          apply (f_equal length) in Hm. rewrite length_app in Hm.
          destruct F; [reflexivity | cbn [length] in *; lia]. }
        subst F. reflexivity.
Qed.

Lemma bounded_buffer_keep (n : nat) (p : OverflowPolicy)
    (msgs : list Message) :
  p <> DROP_OLDEST ->
  exists Q X : list Message,
    msgs = Q ++ X /\ length Q = Nat.min (length msgs) n
    /\ BoundedMailbox.run (map Send msgs)
         (BoundedMailbox.suspend (BoundedMailbox.init (Z.of_nat n) p))
       = BoundedMailbox.mk Q (Z.of_nat n) p false true (length X)
           false 0 0 [] (if p is REJECT then X else []) X Q.
Proof.
  intros Hp. induction msgs as [|m msgs IH] using rev_ind.
  - exists [], []. repeat split. destruct p; reflexivity.
  - destruct IH as (Q & X & Hm & Hl & Hs).
    rewrite map_app, bounded_run_app, Hs. cbn [map].
    change (BoundedMailbox.run [Send m] ?s) with (BoundedMailbox.send m s).
    rewrite length_app. cbn [length].
    destruct (Z.of_nat (length Q) >=? Z.of_nat n)%Z eqn:Hfull.
    + exists Q, (X ++ [m]). split; [|split].
      * rewrite Hm, <- app_assoc. reflexivity.
      * apply Z.geb_le in Hfull. lia.
      * bounded_unfold. rewrite Hfull, length_app. cbn [length].
        destruct p; [exfalso; apply Hp; reflexivity | reflexivity..].
    + rewrite Z.geb_leb in Hfull. apply Z.leb_gt in Hfull.
      assert (EX : X = []).
      { apply (f_equal length) in Hm. rewrite length_app in Hm.
        destruct X; [reflexivity | cbn [length] in *; lia]. }
      subst X. rewrite app_nil_r in Hm. subst Q.
      exists (msgs ++ [m]), []. split; [|split].
      * rewrite app_nil_r. reflexivity.
      * rewrite length_app. cbn [length]. lia.
      * bounded_unfold.
        assert (E : (Z.of_nat (length msgs) >=? Z.of_nat n)%Z = false)
          by (rewrite Z.geb_leb; apply Z.leb_gt; exact Hfull).
        rewrite E. destruct p; reflexivity.
Qed.

Lemma bounded_kept_then_drained (c : Z) (p : OverflowPolicy) (n : nat)
    (Q DL R A : list Message) :
  let s := BoundedMailbox.mk Q c p false true n false 0 0 [] DL R A in
  let s' := BoundedMailbox.run
              (Resume :: Start :: repeat (Continue Returned) (length Q)) s in
  BoundedMailbox.delivered s' = Q /\ BoundedMailbox.queue s' = []
  /\ BoundedMailbox.workers s' = 0.
Proof.
  cbn zeta.
  destruct (bounded_resume_drains c p n Q [] DL R A) as (_ & _ & _ & Hrun).
  change (BoundedMailbox.run
            (Resume :: Start :: repeat (Continue Returned) (length Q)) ?s)
    with (BoundedMailbox.run (Start :: repeat (Continue Returned) (length Q))
            (BoundedMailbox.resume s)).
  rewrite Hrun. repeat split.
Qed.

(** X14.  What a suspended [BoundedMailbox] of capacity [n] holds after any
    number of sends: under [DROP_OLDEST] (capacity at least 1) the newest
    [n] messages, the older ones evicted; under [DROP_NEWEST] and [REJECT]
    the oldest [n], the later ones dropped, and under [REJECT] given to
    dead letters in order.  The dropped messages are settled with [None] in
    the order of their sends, [dropped_message_count()] is the number of
    sends beyond the capacity, and after [resume()] the worker delivers
    exactly the messages kept, in order. *)
Theorem suspended_overflow_contents (n : nat) (p : OverflowPolicy)
    (msgs : list Message) :
  (p = DROP_OLDEST -> 1 <= n) ->
  let s := BoundedMailbox.run (Suspend :: map Send msgs)
             (BoundedMailbox.init (Z.of_nat n) p) in
  BoundedMailbox.queue s = overflow_keeps p n msgs
  /\ BoundedMailbox.resolved s = overflow_drops p n msgs
  /\ BoundedMailbox.dropped_message_count s = length msgs - n
  /\ BoundedMailbox.dead_letters s
     = (if p is REJECT then overflow_drops p n msgs else [])
  /\ BoundedMailbox.delivered s = []
  /\ let s' := BoundedMailbox.run
                 (Resume :: Start
                  :: repeat (Continue Returned)
                       (length (overflow_keeps p n msgs))) s in
     BoundedMailbox.delivered s' = overflow_keeps p n msgs
     /\ BoundedMailbox.queue s' = []
     /\ BoundedMailbox.workers s' = 0.
Proof.
  intros Hn. cbn zeta.
  change (BoundedMailbox.run (Suspend :: map Send msgs)
            (BoundedMailbox.init (Z.of_nat n) p))
    with (BoundedMailbox.run (map Send msgs)
            (BoundedMailbox.suspend (BoundedMailbox.init (Z.of_nat n) p))).
  assert (Hdec : p = DROP_OLDEST \/ p <> DROP_OLDEST)
    by (destruct p; [left; reflexivity | right; discriminate..]).
  destruct Hdec as [->|Hp].
  - destruct (bounded_buffer_drop_oldest n msgs (Hn eq_refl))
      as (F & Q & Hm & Hl & ->).
    assert (HF : length msgs - n = length F)
      by (apply (f_equal length) in Hm; rewrite length_app in Hm; lia).
    unfold overflow_keeps, overflow_drops. rewrite HF, Hm.
    rewrite drop_app_length, take_app_length.
    cbn [BoundedMailbox.queue BoundedMailbox.resolved
         BoundedMailbox.dropped_message_count BoundedMailbox.dead_letters
         BoundedMailbox.delivered].
    repeat split; apply bounded_kept_then_drained.
  - destruct (bounded_buffer_keep n p msgs Hp) as (Q & X & Hm & Hl & ->).
    assert (HQ : firstn n msgs = Q /\ skipn n msgs = X
                 /\ length msgs - n = length X).
    { apply (f_equal length) in Hm as Hlen. rewrite length_app in Hlen.
      destruct (Nat.le_gt_cases n (length msgs)) as [Hle|Hgt].
      - assert (length Q = n) by lia.
        rewrite Hm. subst n. rewrite take_app_length, drop_app_length.
        repeat split. rewrite length_app. lia.
      - assert (EX : X = [])
          by (destruct X; [reflexivity | cbn [length] in *; lia]).
        subst X. rewrite app_nil_r in Hm. subst Q.
        rewrite take_ge, drop_ge by lia. repeat split. simpl. lia. }
    destruct HQ as (HQ1 & HQ2 & HQ3).
    assert (Hk : overflow_keeps p n msgs = Q)
      by (destruct p; [exfalso; apply Hp; reflexivity | exact HQ1..]).
    assert (Hd : overflow_drops p n msgs = X)
      by (destruct p; [exfalso; apply Hp; reflexivity | exact HQ2..]).
    rewrite Hk, Hd, HQ3.
    cbn [BoundedMailbox.queue BoundedMailbox.resolved
         BoundedMailbox.dropped_message_count BoundedMailbox.dead_letters
         BoundedMailbox.delivered].
    repeat split; apply bounded_kept_then_drained.
Qed.

Lemma suspended_overflow_contents_witness :
  let s := BoundedMailbox.run (Suspend :: map Send [0; 1; 2; 3; 4; 5; 6])
             (BoundedMailbox.init (Z.of_nat 2) DROP_OLDEST) in
  (DROP_OLDEST = DROP_OLDEST -> 1 <= 2)
  /\ BoundedMailbox.queue s = [5; 6]
  /\ BoundedMailbox.dropped_message_count s = 5.
Proof.
  assert (Hn : DROP_OLDEST = DROP_OLDEST -> 1 <= 2) by (intros _; lia).
  split; [exact Hn|].
  pose proof (suspended_overflow_contents 2 DROP_OLDEST
                [0; 1; 2; 3; 4; 5; 6] Hn) as (Hq & _ & Hc & _).
  split; [exact Hq | exact Hc].
Defined.

(** *** the worker drains the queue, whether handlers return or raise *)

Lemma array_turns_drain (os : list outcome) :
  forall q D DL R A : list Message,
  (2 * length q + 2 <= length os ->
   ArrayMailbox.run (worker_turns os)
     (ArrayMailbox.mk q false false true 0 1 D DL R A)
   = ArrayMailbox.mk [] false false false 0 0 (D ++ q) DL R A)
  /\ (2 * length q + 1 <= length os ->
      ArrayMailbox.run (worker_turns os)
        (ArrayMailbox.mk q false false true 1 0 D DL R A)
      = ArrayMailbox.mk [] false false false 0 0 (D ++ q) DL R A)
  /\ ArrayMailbox.run (worker_turns os)
       (ArrayMailbox.mk [] false false false 0 0 D DL R A)
     = ArrayMailbox.mk [] false false false 0 0 D DL R A.
Proof.
  induction os as [|o os IH]; intros q D DL R A.
  - repeat split; simpl; intros; lia.
  - change (worker_turns (o :: os))
      with (Start :: Continue o :: worker_turns os).
    cbn [length]. split; [|split].
    + intros Hl. destruct q as [|h t], o; cbn [length] in Hl.
      * etransitivity; [apply (IH [] D DL R A)|]. by rewrite app_nil_r.
      * etransitivity; [apply (IH [] D DL R A)|]. by rewrite app_nil_r.
      * etransitivity; [apply (proj1 (IH t (D ++ [h]) DL R A)); lia|].
        by rewrite <- app_assoc.
      * etransitivity;
          [apply (proj1 (proj2 (IH (h :: t) D DL R A))); cbn [length]; lia|].
        reflexivity.
    + intros Hl. destruct q as [|h [|h' t']], o; cbn [length] in Hl.
      * etransitivity; [apply (IH [] D DL R A)|]. by rewrite app_nil_r.
      * etransitivity; [apply (IH [] D DL R A)|]. by rewrite app_nil_r.
      * etransitivity; [apply (IH [] (D ++ [h]) DL R A)|]. reflexivity.
      * etransitivity; [apply (IH [] (D ++ [h]) DL R A)|]. reflexivity.
      * etransitivity;
          [apply (proj1 (IH t' ((D ++ [h]) ++ [h']) DL R A)); lia|].
        by rewrite <- !app_assoc.
      * etransitivity;
          [apply (proj1 (proj2 (IH (h' :: t') (D ++ [h]) DL R A)));
           cbn [length]; lia|].
        by rewrite <- !app_assoc.
    + destruct o; apply (IH [] D DL R A).
Qed.

Lemma bounded_turns_drain (os : list outcome) :
  forall (c : Z) (p : OverflowPolicy) (n : nat) (q D DL R A : list Message),
  (2 * length q + 2 <= length os ->
   BoundedMailbox.run (worker_turns os)
     (BoundedMailbox.mk q c p false false n true 0 1 D DL R A)
   = BoundedMailbox.mk [] c p false false n false 0 0 (D ++ q) DL R A)
  /\ (2 * length q + 1 <= length os ->
      BoundedMailbox.run (worker_turns os)
        (BoundedMailbox.mk q c p false false n true 1 0 D DL R A)
      = BoundedMailbox.mk [] c p false false n false 0 0 (D ++ q) DL R A)
  /\ BoundedMailbox.run (worker_turns os)
       (BoundedMailbox.mk [] c p false false n false 0 0 D DL R A)
     = BoundedMailbox.mk [] c p false false n false 0 0 D DL R A.
Proof.
  induction os as [|o os IH]; intros c p n q D DL R A.
  - repeat split; simpl; intros; lia.
  - change (worker_turns (o :: os))
      with (Start :: Continue o :: worker_turns os).
    cbn [length]. split; [|split].
    + intros Hl. destruct q as [|h t], o; cbn [length] in Hl.
      * etransitivity; [apply (IH c p n [] D DL R A)|]. by rewrite app_nil_r.
      * etransitivity; [apply (IH c p n [] D DL R A)|]. by rewrite app_nil_r.
      * etransitivity; [apply (proj1 (IH c p n t (D ++ [h]) DL R A)); lia|].
        by rewrite <- app_assoc.
      * etransitivity;
          [apply (proj1 (proj2 (IH c p n (h :: t) D DL R A)));
           cbn [length]; lia|].
        reflexivity.
    + intros Hl. destruct q as [|h [|h' t']], o; cbn [length] in Hl.
      * etransitivity; [apply (IH c p n [] D DL R A)|]. by rewrite app_nil_r.
      * etransitivity; [apply (IH c p n [] D DL R A)|]. by rewrite app_nil_r.
      * etransitivity; [apply (IH c p n [] (D ++ [h]) DL R A)|]. reflexivity.
      * etransitivity; [apply (IH c p n [] (D ++ [h]) DL R A)|]. reflexivity.
      * etransitivity;
          [apply (proj1 (IH c p n t' ((D ++ [h]) ++ [h']) DL R A)); lia|].
        by rewrite <- !app_assoc.
      * etransitivity;
          [apply (proj1 (proj2 (IH c p n (h' :: t') (D ++ [h]) DL R A)));
           cbn [length]; lia|].
        by rewrite <- !app_assoc.
    + destruct o; apply (IH c p n [] D DL R A).
Qed.

Lemma array_reachable_drains (s : ArrayMailbox.state) (os : list outcome) :
  array_flag_inv s -> array_work_inv s ->
  ArrayMailbox.suspended s = false -> ArrayMailbox.closed s = false ->
  2 * ArrayMailbox.size s + 2 <= length os ->
  let s' := ArrayMailbox.run (worker_turns os) s in
  ArrayMailbox.delivered s' = ArrayMailbox.delivered s ++ ArrayMailbox.queue s
  /\ ArrayMailbox.queue s' = [] /\ ArrayMailbox.workers s' = 0
  /\ ArrayMailbox.dispatching s' = false.
Proof.
  unfold array_flag_inv, array_work_inv, ArrayMailbox.size.
  destruct s as [q c su d t a D DL R A]. array_unfold.
  intros Hf Hw -> -> Hl. cbn zeta.
  destruct d.
  - destruct t as [|[|t]], a as [|[|a]]; simpl in Hf; try lia.
    + rewrite (proj1 (array_turns_drain os q D DL R A)) by exact Hl.
      repeat split.
    + rewrite (proj1 (proj2 (array_turns_drain os q D DL R A))) by lia.
      repeat split.
  - destruct t, a; simpl in Hf; try lia.
    destruct q as [|h q]; [|discriminate Hw; [discriminate | reflexivity..]].
    rewrite (proj2 (proj2 (array_turns_drain os [] D DL R A))).
    rewrite app_nil_r. repeat split.
Qed.

Lemma bounded_reachable_drains (s : BoundedMailbox.state)
    (os : list outcome) :
  bounded_flag_inv s -> bounded_work_inv s ->
  (1 <= BoundedMailbox.capacity s)%Z ->
  BoundedMailbox.suspended s = false -> BoundedMailbox.closed s = false ->
  2 * BoundedMailbox.size s + 2 <= length os ->
  let s' := BoundedMailbox.run (worker_turns os) s in
  BoundedMailbox.delivered s'
  = BoundedMailbox.delivered s ++ BoundedMailbox.queue s
  /\ BoundedMailbox.queue s' = [] /\ BoundedMailbox.workers s' = 0
  /\ BoundedMailbox.dispatching s' = false.
Proof.
  unfold bounded_flag_inv, bounded_work_inv, BoundedMailbox.size.
  destruct s as [q cap p c su n d t a D DL R A]. bounded_unfold.
  intros Hf Hw Hcap -> -> Hl. cbn zeta.
  destruct d.
  - destruct t as [|[|t]], a as [|[|a]]; simpl in Hf; try lia.
    + rewrite (proj1 (bounded_turns_drain os cap p n q D DL R A)) by exact Hl.
      repeat split.
    + rewrite (proj1 (proj2 (bounded_turns_drain os cap p n q D DL R A)))
        by lia.
      repeat split.
  - destruct t, a; simpl in Hf; try lia.
    destruct q as [|h q];
      [|discriminate Hw; [exact Hcap | discriminate | reflexivity..]].
    rewrite (proj2 (proj2 (bounded_turns_drain os cap p n [] D DL R A))).
    rewrite app_nil_r. repeat split.
Qed.

(** X15.  The worker never gets stuck and loses nothing, whether handlers
    return or raise.  From every reachable state of an [ArrayMailbox], or
    of a [BoundedMailbox] whose capacity is at least 1, that is neither
    suspended nor closed: when the dispatch tasks are given enough turns
    and nothing else happens, every queued message is delivered, once and
    in order, whatever the outcome of each [deliver()]; the queue is then
    empty, no worker is left and the [_dispatching] flag is clear.  After a
    handler raises, the [finally] block starts the task that delivers the
    next message; the message whose handler raised is not delivered
    again. *)
Theorem worker_drains_queue (k : kind) (tr : list label)
    (os : list outcome) :
  Mailbox.capacity_positive k ->
  let mb := Mailbox.run tr (Mailbox.new k) in
  Mailbox.is_suspended mb = false -> Mailbox.is_closed mb = false ->
  2 * Mailbox.size mb + 2 <= length os ->
  let mb' := Mailbox.run (worker_turns os) mb in
  Mailbox.delivered mb' = Mailbox.delivered mb ++ Mailbox.queue mb
  /\ Mailbox.queue mb' = [] /\ Mailbox.workers mb' = 0
  /\ Mailbox.dispatching mb' = false.
Proof.
  intros Hk. mailbox_cases k; cbn zeta;
    cbn [Mailbox.is_suspended Mailbox.is_closed Mailbox.size
         Mailbox.delivered Mailbox.queue Mailbox.workers
         Mailbox.dispatching]; intros Hs Hc Hl.
  - apply array_reachable_drains; try assumption.
    + apply array_flag_run.
    + apply array_work_run.
  - apply bounded_reachable_drains; try assumption.
    + apply bounded_flag_run.
    + apply bounded_work_run.
    + rewrite (proj1 (bounded_config_run tr _)). exact Hk.
Qed.

Lemma worker_drains_queue_witness :
  let k := BoundedBy 3 DROP_OLDEST in
  let tr := [Send 1; Start; Send 2; Send 3; Send 4] in
  let os := [Raised; Returned; Raised; Raised; Returned; Returned;
             Returned; Raised] in
  let mb := Mailbox.run tr (Mailbox.new k) in
  (Mailbox.capacity_positive k
   /\ Mailbox.is_suspended mb = false /\ Mailbox.is_closed mb = false
   /\ 2 * Mailbox.size mb + 2 <= length os)
  /\ Mailbox.delivered (Mailbox.run (worker_turns os) mb) = [1; 2; 3; 4].
Proof.
  assert (Hk : Mailbox.capacity_positive (BoundedBy 3 DROP_OLDEST))
    by (simpl; lia).
  assert (Hl : 2 * Mailbox.size
                     (Mailbox.run [Send 1; Start; Send 2; Send 3; Send 4]
                        (Mailbox.new (BoundedBy 3 DROP_OLDEST))) + 2
               <= length [Raised; Returned; Raised; Raised; Returned;
                          Returned; Returned; Raised])
    by (vm_compute; lia).
  split; [repeat split; [exact Hk | exact Hl]|].
  exact (proj1 (worker_drains_queue (BoundedBy 3 DROP_OLDEST)
                  [Send 1; Start; Send 2; Send 3; Send 4]
                  [Raised; Returned; Raised; Raised; Returned; Returned;
                   Returned; Raised] Hk eq_refl eq_refl Hl)).
Defined.

(** X16.  An open [BoundedMailbox] with policy [DROP_OLDEST] accepts every
    message: whether the queue has room, is full or is empty at a capacity
    of zero, after [send(m)] the message [m] is the last one in the queue,
    and no dead letter is written. *)
Theorem drop_oldest_always_enqueues (s : BoundedMailbox.state)
    (m : Message) :
  BoundedMailbox.overflow_policy s = DROP_OLDEST ->
  BoundedMailbox.closed s = false ->
  let s' := BoundedMailbox.send m s in
  last (BoundedMailbox.queue s') = Some m
  /\ BoundedMailbox.appended s' = BoundedMailbox.appended s ++ [m]
  /\ BoundedMailbox.dead_letters s' = BoundedMailbox.dead_letters s
  /\ BoundedMailbox.delivered s' = BoundedMailbox.delivered s.
Proof.
  destruct s as [q cap pol c su n d t a D DL R A].
  cbn [BoundedMailbox.overflow_policy BoundedMailbox.closed].
  intros -> ->. bounded_unfold.
  destruct (Z.of_nat (length q) >=? cap)%Z, su, d, q as [|h q];
    cbn [app]; rewrite ?last_snoc; repeat split;
    try (change (h :: q ++ [m]) with ((h :: q) ++ [m]); apply last_snoc).
Qed.

Lemma drop_oldest_always_enqueues_witness :
  let s := BoundedMailbox.run [Send 1; Send 2; Send 3]
             (BoundedMailbox.init 2 DROP_OLDEST) in
  (BoundedMailbox.overflow_policy s = DROP_OLDEST
   /\ BoundedMailbox.closed s = false)
  /\ last (BoundedMailbox.queue (BoundedMailbox.send 4 s)) = Some 4.
Proof.
  split; [split; reflexivity|].
  exact (proj1 (drop_oldest_always_enqueues
                  (BoundedMailbox.run [Send 1; Send 2; Send 3]
                     (BoundedMailbox.init 2 DROP_OLDEST))
                  4 eq_refl eq_refl)).
Defined.
